(** * TicTacToe: the game state machine (js/game.js), the minimax engine
    (js/ai.js), the game loop (js/main.js) and the player names
    (js/storage.js)

    A shallow embedding of the modules that carry the game logic, and the
    properties of the design document that concern them.

    - The JavaScript strings used as marks ('', 'X', 'O') are an
      enumeration.
    - An array read [board[i]] is a list lookup; [None] stands for
      [undefined].
    - An array write [board[i] = v] only ever happens at an index at which
      a read has just returned [EMPTY]; it is in range and is a list insert.
    - Arrays are objects and the engine receives a reference: the engine is
      written over a store of arrays, in a small state monad.  The state of
      the Game module is a value that each operation takes and returns.
    - [Math.floor(Math.random() * n)] is a parameter [rnd n] of the
      functions that draw a number.
    - [minimax] recurses once per empty cell; the embedding bounds the
      recursion by fuel and shows that the fuel it is given suffices.
    - A promise stands for the value it resolves to: what follows an
      [await] runs on that value.
    - A player's name is the list of its UTF-16 code units. *)

From stdpp Require Import base option list gmap sorting.
From Stdlib Require Import ZArith Lia.

Local Open Scope Z_scope.

(** ** Marks *)

Inductive cell : Set :=
| EMPTY      (* '' *)
| PLAYER_X   (* 'X' *)
| PLAYER_O.  (* 'O' *)

#[global] Instance cell_eq_dec : EqDecision cell.
Proof. solve_decision. Defined.

(** An index triple of WINNING_COMBINATIONS. *)
Definition combo : Set := (nat * nat * nat)%type.

Definition WINNING_COMBINATIONS : list combo :=
  [ (0, 1, 2); (3, 4, 5); (6, 7, 8);     (* rows *)
    (0, 3, 6); (1, 4, 7); (2, 5, 8);     (* columns *)
    (0, 4, 8); (2, 4, 6) ]%nat.          (* diagonals *)

(** The test of both [Game.checkGameEnd] and [AI.checkWinner]:
  [board[a] !== EMPTY && board[a] === board[b] && board[a] === board[c]]. *)
Definition lineComplete (board : list cell) (c : combo) : bool :=
  let '(a, b, c) := c in
  bool_decide (board !! a ≠ Some EMPTY)
  && bool_decide (board !! a = board !! b)
  && bool_decide (board !! a = board !! c).

(** [board.every(cell => cell !== EMPTY)] *)
Definition everyNonEmpty (board : list cell) : bool :=
  forallb (fun cell => bool_decide (cell ≠ EMPTY)) board.

(** ** The Game module (js/game.js) *)

Module Game.

(** [state.winner] / [result.winner]: null, 'draw', or the value read
    from the board ([None] when that read gave [undefined]). *)
Inductive outcome : Set :=
| Null
| Draw
| Mark (v : option cell).

#[global] Instance outcome_eq_dec : EqDecision outcome.
Proof. solve_decision. Defined.

Record result : Set := Result {
  ended : bool;
  resultWinner : outcome;
  resultWinningLine : option combo
}.

Record state : Set := State {
  board : list cell;
  currentPlayer : cell;
  gameOver : bool;
  winner : outcome;
  winningLine : option combo;
  playerSymbol : cell;
  aiSymbol : cell
}.

(** What the two callbacks are handed: a copy of the state. *)
Inductive event : Set :=
| StateChange (snapshot : state)
| GameEnd (snapshot : state).

Definition createInitialState (playerSymbol : cell) : state :=
  let aiSymbol := if decide (playerSymbol = PLAYER_X) then PLAYER_O else PLAYER_X in
  {| board := replicate 9 EMPTY;
     currentPlayer := PLAYER_X;
     gameOver := false;
     winner := Null;
     winningLine := None;
     playerSymbol := playerSymbol;
     aiSymbol := aiSymbol |}.

Definition setCurrentPlayer (s : state) (p : cell) : state :=
  {| board := board s; currentPlayer := p; gameOver := gameOver s;
     winner := winner s; winningLine := winningLine s;
     playerSymbol := playerSymbol s; aiSymbol := aiSymbol s |}.

Definition setBoard (s : state) (b : list cell) : state :=
  {| board := b; currentPlayer := currentPlayer s; gameOver := gameOver s;
     winner := winner s; winningLine := winningLine s;
     playerSymbol := playerSymbol s; aiSymbol := aiSymbol s |}.

Definition setEnded (s : state) (w : outcome) (l : option combo) : state :=
  {| board := board s; currentPlayer := currentPlayer s; gameOver := true;
     winner := w; winningLine := l;
     playerSymbol := playerSymbol s; aiSymbol := aiSymbol s |}.

(** [init]: anything but 'X' and 'O' is replaced by 'X'. *)
Definition init (playerSymbol : cell) : state * list event :=
  let playerSymbol :=
    if bool_decide (playerSymbol ≠ PLAYER_X) && bool_decide (playerSymbol ≠ PLAYER_O)
    then PLAYER_X else playerSymbol in
  let s := createInitialState playerSymbol in
  let s := setCurrentPlayer s PLAYER_X in
  (s, [StateChange s]).

Definition isValidMove (s : state) (index : Z) : bool :=
  negb (gameOver s)
  && (0 <=? index)
  && (index <? 9)
  && bool_decide (board s !! Z.to_nat index = Some EMPTY).

(** The [for ... of WINNING_COMBINATIONS] loop of [checkGameEnd], which
    returns from inside the loop at the first complete line. *)
Fixpoint scanCombos (board : list cell) (combos : list combo) : option result :=
  match combos with
  | [] => None
  | (a, b, c) :: rest =>
      if lineComplete board (a, b, c)
      then Some {| ended := true;
                   resultWinner := Mark (board !! a);
                   resultWinningLine := Some (a, b, c) |}
      else scanCombos board rest
  end.

Definition checkGameEnd (board : list cell) : result :=
  match scanCombos board WINNING_COMBINATIONS with
  | Some r => r
  | None =>
      if everyNonEmpty board
      then {| ended := true; resultWinner := Draw; resultWinningLine := None |}
      else {| ended := false; resultWinner := Null; resultWinningLine := None |}
  end.

Definition otherPlayer (p : cell) : cell :=
  if decide (p = PLAYER_X) then PLAYER_O else PLAYER_X.

(** [makeMove]: the returned boolean, the state afterwards, and the
    notifications sent, in order. *)
Definition makeMove (s : state) (index : Z) : bool * state * list event :=
  if negb (isValidMove s index) then (false, s, [])
  else
    let s := setBoard s (<[Z.to_nat index := currentPlayer s]> (board s)) in
    let result := checkGameEnd (board s) in
    if ended result then
      let s := setEnded s (resultWinner result) (resultWinningLine result) in
      (true, s, [StateChange s; GameEnd s])
    else
      let s := setCurrentPlayer s (otherPlayer (currentPlayer s)) in
      (true, s, [StateChange s]).

Definition getBoard (s : state) : list cell := board s.
Definition getAISymbol (s : state) : cell := aiSymbol s.

Definition isPlayerTurn (s : state) : bool :=
  bool_decide (currentPlayer s = playerSymbol s) && negb (gameOver s).

Definition isAITurn (s : state) : bool :=
  bool_decide (currentPlayer s = aiSymbol s) && negb (gameOver s).

(** A sequence of [makeMove] calls; next to the final state, the marks
    that the successful calls put on the board, in order. *)
Fixpoint makeMoves (s : state) (indices : list Z) : state * list cell :=
  match indices with
  | [] => (s, [])
  | index :: rest =>
      let '(ok, s', _) := makeMove s index in
      let '(final, marks) := makeMoves s' rest in
      (final,
       if ok then default EMPTY (board s' !! Z.to_nat index) :: marks else marks)
  end.

(** The loop of [getAvailableMoves], from index [i] on. *)
Fixpoint availableFrom (i : nat) (cells : list cell) : list nat :=
  match cells with
  | [] => []
  | c :: rest =>
      if decide (c = EMPTY) then i :: availableFrom (S i) rest
      else availableFrom (S i) rest
  end.

Definition getAvailableMoves (s : state) : list nat :=
  availableFrom 0 (board s).

Definition getCurrentPlayer (s : state) : cell := currentPlayer s.
Definition getPlayerSymbol (s : state) : cell := playerSymbol s.

(** The notifications sent during a sequence of [makeMove] calls. *)
Fixpoint makeMovesEvents (s : state) (indices : list Z) : list event :=
  match indices with
  | [] => []
  | index :: rest =>
      (makeMove s index).2 ++ makeMovesEvents (makeMove s index).1.2 rest
  end.

(** The states of the module: after [init], and after any call of
    [makeMove]. *)
Inductive reachable : state → Prop :=
| reachable_init playerSymbol :
    reachable (init playerSymbol).1
| reachable_makeMove s index :
    reachable s → reachable (makeMove s index).1.2.

End Game.


(** ** JavaScript numbers, as far as the engine uses them

    Scores are integers; the loops start from [-Infinity] and [Infinity]. *)

Inductive number : Set :=
| NegInfinity
| Num (z : Z)
| Infinity.

#[global] Instance number_eq_dec : EqDecision number.
Proof. solve_decision. Defined.

(** [a <= b] *)
Definition number_le (a b : number) : bool :=
  match a, b with
  | NegInfinity, _ => true
  | _, Infinity => true
  | Num x, Num y => x <=? y
  | _, _ => false
  end.

(** [a > b] *)
Definition number_gt (a b : number) : bool :=
  match a, b with
  | NegInfinity, _ => false
  | _, Infinity => false
  | Num x, Num y => y <? x
  | _, _ => true
  end.

Definition Math_max (a b : number) : number :=
  if number_le a b then b else a.

Definition Math_min (a b : number) : number :=
  if number_le a b then a else b.

(** ** A store of arrays

    [None] is a computation that does not produce a value: a dangling
    reference, or recursion deeper than the fuel. *)

Definition ref : Set := nat.

Definition M (A : Type) : Type :=
  gmap nat (list cell) → option (A * gmap nat (list cell)).

#[global] Instance M_ret : MRet M := λ A (a : A) σ, Some (a, σ).

#[global] Instance M_bind : MBind M := λ A B (k : A → M B) (m : M A) σ,
  match m σ with
  | Some (a, σ') => k a σ'
  | None => None
  end.

Definition stuck {A} : M A := fun _ => None.

(** The contents of an array. *)
Definition readArray (r : ref) : M (list cell) :=
  fun σ => match σ !! r with
           | Some b => Some (b, σ)
           | None => None
           end.

(** [r[index] = v] *)
Definition writeCell (r : ref) (index : nat) (v : cell) : M unit :=
  fun σ => match σ !! r with
           | Some b => Some ((), <[r := <[index := v]> b]> σ)
           | None => None
           end.

(** A new array with the given contents. *)
Definition allocArray (b : list cell) : M ref :=
  fun σ => let r := fresh (dom σ) in Some (r, <[r := b]> σ).

(** [[...r]]: a new array with the contents of [r]. *)
Definition copyArray (r : ref) : M ref :=
  b ← readArray r; allocArray b.

(** ** The AI module (js/ai.js) *)

Module AI.

Definition SCORE_WIN : Z := 10.
Definition SCORE_LOSE : Z := -10.
Definition SCORE_DRAW : Z := 0.

(** What [checkWinner] returns: [null], or the value read at [board[a]]. *)
Inductive winner : Set :=
| Null
| Read (v : option cell).

#[global] Instance winner_eq_dec : EqDecision winner.
Proof. solve_decision. Defined.

Fixpoint checkWinnerIn (board : list cell) (combos : list combo) : winner :=
  match combos with
  | [] => Null
  | (a, b, c) :: rest =>
      if lineComplete board (a, b, c) then Read (board !! a)
      else checkWinnerIn board rest
  end.

Definition checkWinner (board : list cell) : winner :=
  checkWinnerIn board WINNING_COMBINATIONS.

Definition isBoardFull (board : list cell) : bool := everyNonEmpty board.

(** The loop of [getEmptyCells], from index [i] on. *)
Fixpoint emptyCellsFrom (i : nat) (cells : list cell) : list nat :=
  match cells with
  | [] => []
  | c :: rest =>
      if decide (c = EMPTY) then i :: emptyCellsFrom (S i) rest
      else emptyCellsFrom (S i) rest
  end.

Definition getEmptyCells (board : list cell) : list nat :=
  emptyCellsFrom 0 board.

(** The two [for (const index of emptyCells)] loops of [minimax]; [child]
    is the recursive call [minimax(board, depth + 1, _, alpha, beta)]. *)
Section Loops.

Context (board : ref) (child : number → number → M number) (beta0 : number).

Fixpoint maximize (cells : list nat) (bestScore alpha : number) : M number :=
  match cells with
  | [] => mret bestScore
  | index :: rest =>
      writeCell board index PLAYER_O;;
      score ← child alpha beta0;
      writeCell board index EMPTY;;
      let bestScore := Math_max score bestScore in
      let alpha := Math_max alpha score in
      if number_le beta0 alpha then mret bestScore
      else maximize rest bestScore alpha
  end.

Context (alpha0 : number).

Fixpoint minimize (cells : list nat) (bestScore beta : number) : M number :=
  match cells with
  | [] => mret bestScore
  | index :: rest =>
      writeCell board index PLAYER_X;;
      score ← child alpha0 beta;
      writeCell board index EMPTY;;
      let bestScore := Math_min score bestScore in
      let beta := Math_min beta score in
      if number_le beta alpha0 then mret bestScore
      else minimize rest bestScore beta
  end.

End Loops.

(** [minimax]; the recursion is as deep as there are empty cells, [fuel]
    bounds it. *)
Fixpoint minimax (fuel : nat) (board : ref) (depth : Z) (isMaximizing : bool)
    (alpha beta : number) : M number :=
  match fuel with
  | O => stuck
  | S fuel =>
      b ← readArray board;
      let winner := checkWinner b in
      if decide (winner = Read (Some PLAYER_O)) then mret (Num (SCORE_WIN - depth))
      else if decide (winner = Read (Some PLAYER_X)) then mret (Num (SCORE_LOSE + depth))
      else if isBoardFull b then mret (Num SCORE_DRAW)
      else
        let emptyCells := getEmptyCells b in
        if isMaximizing then
          maximize board (minimax fuel board (depth + 1) false) beta
                   emptyCells NegInfinity alpha
        else
          minimize board (minimax fuel board (depth + 1) true) alpha
                   emptyCells Infinity beta
  end.

(** What [findBestMove] and [findRandomMove] return: [null], an index, or
    [undefined] (an array read past the end). *)
Inductive move : Set :=
| NoMove
| Undefined
| Index (i : nat).

#[global] Instance move_eq_dec : EqDecision move.
Proof. solve_decision. Defined.

(** [array[i]] for an array of indices. *)
Definition pick (array : list nat) (i : nat) : move :=
  match array !! i with
  | Some index => Index index
  | None => Undefined
  end.

(** Fuel for a search below a board with [n] empty cells. *)
Definition fuelFor (emptyCells : list nat) : nat := S (length emptyCells).

(** The body of the [for (const index of emptyCells)] loop of
    [findBestMove], up to the score: try the move, evaluate it, undo it. *)
Definition scoreMove (fuel : nat) (boardCopy : ref) (index : nat) : M number :=
  writeCell boardCopy index PLAYER_O;;
  score ← minimax fuel boardCopy 0 false NegInfinity Infinity;
  writeCell boardCopy index EMPTY;;
  mret score.

(** The loop itself. *)
Fixpoint searchMoves (fuel : nat) (boardCopy : ref) (cells : list nat)
    (bestScore : number) (bestMove : move) : M move :=
  match cells with
  | [] => mret bestMove
  | index :: rest =>
      score ← scoreMove fuel boardCopy index;
      if number_gt score bestScore
      then searchMoves fuel boardCopy rest score (Index index)
      else searchMoves fuel boardCopy rest bestScore bestMove
  end.

(** [findBestMove]; [rnd n] is [Math.floor(Math.random() * n)]. *)
Definition findBestMove (rnd : nat → nat) (board : ref) : M move :=
  boardCopy ← copyArray board;
  b ← readArray boardCopy;
  let emptyCells := getEmptyCells b in
  if decide (length emptyCells = 0%nat) then mret NoMove
  else if decide (length emptyCells = 9%nat) then
    let firstMoves := [0; 2; 4; 6; 8]%nat in
    mret (pick firstMoves (rnd (length firstMoves)))
  else if bool_decide (length emptyCells = 8%nat) && bool_decide (b !! 4%nat ≠ Some EMPTY) then
    let corners := [0; 2; 6; 8]%nat in
    mret (pick corners (rnd (length corners)))
  else
    searchMoves (fuelFor emptyCells) boardCopy emptyCells NegInfinity NoMove.

Definition getMove (rnd : nat → nat) (board : ref) : M move :=
  findBestMove rnd board.

Definition findRandomMove (rnd : nat → nat) (board : ref) : M move :=
  b ← readArray board;
  let emptyCells := getEmptyCells b in
  if decide (length emptyCells = 0%nat) then mret NoMove
  else
    let randomIndex := rnd (length emptyCells) in
    mret (pick emptyCells randomIndex).

Definition getEasyMove (rnd : nat → nat) (board : ref) : M move :=
  findRandomMove rnd board.

(** The difficulty is a string; only ['easy'] is compared against. *)
Inductive difficulty : Set :=
| easy
| hard
| otherDifficulty.

(** [getMoveWithDifficultyAndDelay(board, delay, difficulty)]: the value the
    returned promise resolves to.  The function declares three parameters;
    arguments beyond them ([surplus]) are dropped by the call. *)
Definition getMoveWithDifficultyAndDelay (rnd : nat → nat) (board : ref)
    (delay : Z) (d : difficulty) (surplus : list cell) : M move :=
  match d with
  | easy => findRandomMove rnd board
  | _ => findBestMove rnd board
  end.

End AI.

(** ** The engine on array contents

    The same functions with the array passed by value: a move is tried on
    an updated copy instead of being written and undone.  They are what
    the store-level functions compute ([minimax_run], [findBestMove_run]
    below) and are used to evaluate positions. *)

Module Value.

Import AI.

Section Loops.

Context (b : list cell) (child : list cell → number → number → option number)
        (beta0 : number).

Fixpoint maximize (cells : list nat) (bestScore alpha : number) : option number :=
  match cells with
  | [] => Some bestScore
  | index :: rest =>
      score ← child (<[index := PLAYER_O]> b) alpha beta0;
      let bestScore := Math_max score bestScore in
      let alpha := Math_max alpha score in
      if number_le beta0 alpha then Some bestScore
      else maximize rest bestScore alpha
  end.

Context (alpha0 : number).

Fixpoint minimize (cells : list nat) (bestScore beta : number) : option number :=
  match cells with
  | [] => Some bestScore
  | index :: rest =>
      score ← child (<[index := PLAYER_X]> b) alpha0 beta;
      let bestScore := Math_min score bestScore in
      let beta := Math_min beta score in
      if number_le beta alpha0 then Some bestScore
      else minimize rest bestScore beta
  end.

End Loops.

Fixpoint minimax (fuel : nat) (b : list cell) (depth : Z) (isMaximizing : bool)
    (alpha beta : number) : option number :=
  match fuel with
  | O => None
  | S fuel =>
      let winner := checkWinner b in
      if decide (winner = Read (Some PLAYER_O)) then Some (Num (SCORE_WIN - depth))
      else if decide (winner = Read (Some PLAYER_X)) then Some (Num (SCORE_LOSE + depth))
      else if isBoardFull b then Some (Num SCORE_DRAW)
      else
        let emptyCells := getEmptyCells b in
        if isMaximizing then
          maximize b (λ b', minimax fuel b' (depth + 1) false) beta
                   emptyCells NegInfinity alpha
        else
          minimize b (λ b', minimax fuel b' (depth + 1) true) alpha
                   emptyCells Infinity beta
  end.

Definition scoreMove (fuel : nat) (b : list cell) (index : nat) : option number :=
  minimax fuel (<[index := PLAYER_O]> b) 0 false NegInfinity Infinity.

Fixpoint searchMoves (fuel : nat) (b : list cell) (cells : list nat)
    (bestScore : number) (bestMove : move) : option move :=
  match cells with
  | [] => Some bestMove
  | index :: rest =>
      score ← scoreMove fuel b index;
      if number_gt score bestScore
      then searchMoves fuel b rest score (Index index)
      else searchMoves fuel b rest bestScore bestMove
  end.

Definition findBestMove (rnd : nat → nat) (b : list cell) : option move :=
  let emptyCells := getEmptyCells b in
  if decide (length emptyCells = 0%nat) then Some NoMove
  else if decide (length emptyCells = 9%nat) then
    let firstMoves := [0; 2; 4; 6; 8]%nat in
    Some (pick firstMoves (rnd (length firstMoves)))
  else if bool_decide (length emptyCells = 8%nat) && bool_decide (b !! 4%nat ≠ Some EMPTY) then
    let corners := [0; 2; 6; 8]%nat in
    Some (pick corners (rnd (length corners)))
  else
    searchMoves (fuelFor emptyCells) b emptyCells NegInfinity NoMove.

Definition findRandomMove (rnd : nat → nat) (b : list cell) : move :=
  let emptyCells := getEmptyCells b in
  if decide (length emptyCells = 0%nat) then NoMove
  else pick emptyCells (rnd (length emptyCells)).

End Value.

(** ** The search without pruning

    The reference the pruned search is compared with: the [minimax] of the
    project specification's Appendix A, which takes no bounds and visits
    every empty cell, and the move loop of [findBestMove] on top of it. *)

Module Full.

Import AI.

Section Loops.

Context (b : list cell) (child : list cell → option number).

Fixpoint maximize (cells : list nat) (bestScore : number) : option number :=
  match cells with
  | [] => Some bestScore
  | index :: rest =>
      score ← child (<[index := PLAYER_O]> b);
      maximize rest (Math_max score bestScore)
  end.

Fixpoint minimize (cells : list nat) (bestScore : number) : option number :=
  match cells with
  | [] => Some bestScore
  | index :: rest =>
      score ← child (<[index := PLAYER_X]> b);
      minimize rest (Math_min score bestScore)
  end.

End Loops.

Fixpoint minimax (fuel : nat) (b : list cell) (depth : Z) (isMaximizing : bool)
    : option number :=
  match fuel with
  | O => None
  | S fuel =>
      let winner := checkWinner b in
      if decide (winner = Read (Some PLAYER_O)) then Some (Num (10 - depth))
      else if decide (winner = Read (Some PLAYER_X)) then Some (Num (depth - 10))
      else if isBoardFull b then Some (Num 0)
      else if isMaximizing then
        maximize b (λ b', minimax fuel b' (depth + 1) false) (getEmptyCells b) NegInfinity
      else
        minimize b (λ b', minimax fuel b' (depth + 1) true) (getEmptyCells b) Infinity
  end.

Definition scoreMove (fuel : nat) (b : list cell) (index : nat) : option number :=
  minimax fuel (<[index := PLAYER_O]> b) 0 false.

Fixpoint searchMoves (fuel : nat) (b : list cell) (cells : list nat)
    (bestScore : number) (bestMove : move) : option move :=
  match cells with
  | [] => Some bestMove
  | index :: rest =>
      score ← scoreMove fuel b index;
      if number_gt score bestScore
      then searchMoves fuel b rest score (Index index)
      else searchMoves fuel b rest bestScore bestMove
  end.

Definition findBestMove (rnd : nat → nat) (b : list cell) : option move :=
  let emptyCells := getEmptyCells b in
  if decide (length emptyCells = 0%nat) then Some NoMove
  else if decide (length emptyCells = 9%nat) then
    Some (pick [0; 2; 4; 6; 8]%nat (rnd 5%nat))
  else if bool_decide (length emptyCells = 8%nat) && bool_decide (b !! 4%nat ≠ Some EMPTY) then
    Some (pick [0; 2; 6; 8]%nat (rnd 4%nat))
  else
    searchMoves (fuelFor emptyCells) b emptyCells NegInfinity NoMove.

End Full.

(** ** The application (js/main.js): the computer's turn *)

Module Main.

Definition AI_DELAY : Z := 400.

(** [triggerAIMove]: the engine is handed a copy of the board
    ([Game.getBoard]) and, as a fourth argument, the computer's symbol; the
    move it answers is made through [Game.makeMove], and [null] is skipped.
    [Game.makeMove(undefined)] fails the range test of [isValidMove]. *)
Definition triggerAIMove (rnd : nat → nat) (d : AI.difficulty) (s : Game.state)
    : M Game.state :=
  board ← allocArray (Game.getBoard s);
  let aiSymbol := Game.getAISymbol s in
  move ← AI.getMoveWithDifficultyAndDelay rnd board AI_DELAY d [aiSymbol];
  match move with
  | AI.Index index => mret ((Game.makeMove s (Z.of_nat index)).1.2)
  | AI.Undefined => mret s
  | AI.NoMove => mret s
  end.







End Main.

(** ** Exhaustive exploration of the games against the Optimal strategy *)

Module Explore.

(** An outcome of [Math.floor(Math.random() * n)] for every [n > 0]. *)
Definition oracle (k n : nat) : nat := Nat.min k (n - 1).

(** Enough oracles to produce every move [findBestMove] can answer. *)
Definition oracles (b : list cell) : list nat :=
  if decide (8 ≤ length (AI.getEmptyCells b))%nat then seq 0 5 else [0%nat].

Definition triggerAIMove (rnd : nat → nat) (s : Game.state) : option Game.state :=
  move ← Value.findBestMove rnd (Game.getBoard s);
  Some match move with
       | AI.Index index => (Game.makeMove s (Z.of_nat index)).1.2
       | _ => s
       end.


(** [true] when no empty cell of [b] gets a higher score from the search
    than the cell [i]. *)
Definition bestScoringb (b : list cell) (i : nat) : bool :=
  let fuel := AI.fuelFor (AI.getEmptyCells b) in
  match Value.scoreMove fuel b i with
  | Some si =>
      forallb (λ j, match Value.scoreMove fuel b j with
                    | Some sj => number_le sj si
                    | None => false
                    end)
              (AI.getEmptyCells b)
  | None => false
  end.

(** All lists of [n] cells. *)
Fixpoint boards (n : nat) : list (list cell) :=
  match n with
  | O => [[]]
  | S n => b ← boards n; [EMPTY :: b; PLAYER_X :: b; PLAYER_O :: b]
  end.

(** Placing [m] on the cell [i] completes a line of [m]. *)
Definition winsAt (m : cell) (b : list cell) (i : nat) : bool :=
  bool_decide (AI.checkWinner (<[i := m]> b) = AI.Read (Some m)).

(** X threatens to complete a line, at one cell only. *)
Definition oneThreat (b : list cell) : bool :=
  existsb (winsAt PLAYER_X b) (AI.getEmptyCells b)
  && forallb (λ j, forallb (λ j', implb (winsAt PLAYER_X b j && winsAt PLAYER_X b j')
                                        (bool_decide (j = j')))
                           (AI.getEmptyCells b))
             (AI.getEmptyCells b).

(** On a board without a complete line, [findBestMove] answers a cell that
    wins at once if there is one, and else the cell of the only threat of
    X if there is just one. *)
Definition winsOrBlocks (b : list cell) : bool :=
  if decide (AI.checkWinner b = AI.Null) then
    forallb (λ k,
      match Value.findBestMove (oracle k) b with
      | Some (AI.Index i) =>
          if existsb (winsAt PLAYER_O b) (AI.getEmptyCells b)
          then winsAt PLAYER_O b i
          else if oneThreat b then winsAt PLAYER_X b i
          else true
      | Some _ => negb (existsb (winsAt PLAYER_O b) (AI.getEmptyCells b))
                  && negb (oneThreat b)
      | None => false
      end) (oracles b)
  else true.

End Explore.

(** ** The Storage module (js/storage.js): player names *)

Module Storage.

(** A string is the list of its UTF-16 code units.  The argument of
    [sanitizePlayerName] is a string, or a value whose [typeof] is not
    'string'. *)
Inductive value : Set :=
| Str (s : list Z)
| NotAString.

Definition PLAYER_NAME_MAX_LENGTH : nat := 30.
Definition DEFAULT_PLAYER_NAME : list Z := [].

(** The white space and line terminators [String.prototype.trim] strips. *)
Definition isWhiteSpace (c : Z) : bool :=
  bool_decide (c ∈ [9; 10; 11; 12; 13; 32; 160; 5760; 8232; 8233; 8239; 8287;
                    12288; 65279])
  || ((8192 <=? c) && (c <=? 8202)).

Fixpoint trimStart (s : list Z) : list Z :=
  match s with
  | [] => []
  | c :: rest => if isWhiteSpace c then trimStart rest else s
  end.

Definition trim (s : list Z) : list Z :=
  reverse (trimStart (reverse (trimStart s))).

(** [s.replace(/c/g, replacement)] for a pattern of one code unit. *)
Definition replaceAll (c : Z) (replacement : list Z) (s : list Z) : list Z :=
  x ← s; if decide (x = c) then replacement else [x].

(** '&amp;', '&lt;', '&gt;', '&quot;' and '&#039;', as code units. *)
Definition ampEntity : list Z := [38; 97; 109; 112; 59].
Definition ltEntity : list Z := [38; 108; 116; 59].
Definition gtEntity : list Z := [38; 103; 116; 59].
Definition quotEntity : list Z := [38; 113; 117; 111; 116; 59].
Definition aposEntity : list Z := [38; 35; 48; 51; 57; 59].

(** [sanitizePlayerName]; 38, 60, 62, 34 and 39 are the ampersand, the
    angle brackets, the double and the single quote. *)
Definition sanitizePlayerName (name : value) : list Z :=
  match name with
  | NotAString => DEFAULT_PLAYER_NAME
  | Str name =>
      let sanitized := trim name in
      let sanitized :=
        if decide (PLAYER_NAME_MAX_LENGTH < length sanitized)%nat
        then take PLAYER_NAME_MAX_LENGTH sanitized
        else sanitized in
      replaceAll 39 aposEntity
        (replaceAll 34 quotEntity
           (replaceAll 62 gtEntity
              (replaceAll 60 ltEntity
                 (replaceAll 38 ampEntity sanitized))))
  end.

End Storage.

(** ** Predicates used to state the properties *)

(** The three cells of the triple [t] all hold the mark [m]. *)
Definition filled (b : list cell) (t : combo) (m : cell) : Prop :=
  m ≠ EMPTY ∧ b !! t.1.1 = Some m ∧ b !! t.1.2 = Some m ∧ b !! t.2 = Some m.


Definition noneFilled (b : list cell) : Prop :=
  ∀ t m, t ∈ WINNING_COMBINATIONS → ¬ filled b t m.

(** How often the mark [m] is on the board. *)
Definition countMark (m : cell) (b : list cell) : nat :=
  length (filter (λ c, c = m) b).

(** The [k]-th mark of a game: X, O, X, ... *)
Definition markOfTurn (k : nat) : cell :=
  if Nat.even k then PLAYER_X else PLAYER_O.

(** The marks on the board are balanced and tell whose turn it is. *)
Definition balanced (s : Game.state) : Prop :=
  let x := countMark PLAYER_X (Game.board s) in
  let o := countMark PLAYER_O (Game.board s) in
  (x = o ∨ x = S o)
  ∧ (Game.gameOver s = false → Game.currentPlayer s = markOfTurn (x + o)).

(** The loop of [findBestMove] gives no empty cell of [b] a higher score
    than it gives the cell [i]. *)
Definition bestScoring (b : list cell) (i : nat) : Prop :=
  ∀ (σ : gmap nat (list cell)) (r : ref),
    σ !! r = Some b →
    ∃ si,
      AI.scoreMove (AI.fuelFor (AI.getEmptyCells b)) r i σ = Some (si, σ)
      ∧ ∀ j, b !! j = Some EMPTY →
          ∃ sj,
            AI.scoreMove (AI.fuelFor (AI.getEmptyCells b)) r j σ = Some (sj, σ)
            ∧ number_le sj si = true.

(** The board of the second scenario of the design document:
    X X _ / O O _ / _ _ _, the engine (O) to move. *)
Definition scenario2 : list cell :=
  [PLAYER_X; PLAYER_X; EMPTY; PLAYER_O; PLAYER_O; EMPTY; EMPTY; EMPTY; EMPTY].

(** The same board with the marks exchanged. *)
Definition scenario2Swapped : list cell :=
  [PLAYER_O; PLAYER_O; EMPTY; PLAYER_X; PLAYER_X; EMPTY; EMPTY; EMPTY; EMPTY].

(** What a search with the window [alpha], [beta] says about the exact
    score [v] when it returns [r]: at or below [alpha], [r] is an upper
    bound of [v]; at or above [beta], a lower bound; strictly between,
    [v] itself. *)
Definition bounds (alpha beta r v : number) : Prop :=
  (number_le r alpha = true → number_le v r = true)
  ∧ (number_le beta r = true → number_le r v = true)
  ∧ (number_le r alpha = false → number_le beta r = false → r = v).

(** [rnd] is a possible behaviour of [Math.floor(Math.random() * n)]. *)
Definition validRandom (rnd : nat → nat) : Prop :=
  ∀ n, (0 < n → rnd n < n)%nat.

(** The fields of a state say what [checkGameEnd] says of its board, the
    board has nine cells, and the two participants hold X and O. *)
Definition consistent (s : Game.state) : Prop :=
  length (Game.board s) = 9%nat
  ∧ (Game.playerSymbol s = PLAYER_X ∧ Game.aiSymbol s = PLAYER_O
     ∨ Game.playerSymbol s = PLAYER_O ∧ Game.aiSymbol s = PLAYER_X)
  ∧ (Game.currentPlayer s = PLAYER_X ∨ Game.currentPlayer s = PLAYER_O)
  ∧ Game.gameOver s = Game.ended (Game.checkGameEnd (Game.board s))
  ∧ Game.winner s = Game.resultWinner (Game.checkGameEnd (Game.board s))
  ∧ Game.winningLine s = Game.resultWinningLine (Game.checkGameEnd (Game.board s)).

(** A game that is won was won by the move just made. *)
Definition wonByLastMove (s : Game.state) : Prop :=
  ∀ v, Game.winner s = Game.Mark v →
    v = Some (Game.currentPlayer s)
    ∧ ∃ t, Game.winningLine s = Some t
           ∧ t ∈ WINNING_COMBINATIONS
           ∧ filled (Game.board s) t (Game.currentPlayer s).

(** [GameEnd] is among the notifications at most once, and then last. *)
Definition endsOnce (events : list Game.event) : Prop :=
  ∀ k snapshot, events !! k = Some (Game.GameEnd snapshot) →
    S k = length events.

(** The score the loop of [findBestMove] gives the cell [j] of [b]; 0
    stands in where the search gives none. *)
Definition scoreOf (b : list cell) (j : nat) : Z :=
  match Value.scoreMove (AI.fuelFor (AI.getEmptyCells b)) b j with
  | Some (Num z) => z
  | _ => 0
  end.

(** A score of [minimax] at [depth] with [n] cells empty: a draw, or a win
    or a loss after [d] plies. *)
Definition scoreShape (depth : Z) (n : nat) (r : number) : Prop :=
  ∃ z, r = Num z
       ∧ (z = 0 ∨ ∃ d, depth ≤ d ≤ depth + Z.of_nat n ∧ (z = 10 - d ∨ z = d - 10)).

(** What the five replacements of [sanitizePlayerName] make of one code
    unit. *)
Definition escaped (c : Z) : list Z :=
  if decide (c = 38) then Storage.ampEntity
  else if decide (c = 60) then Storage.ltEntity
  else if decide (c = 62) then Storage.gtEntity
  else if decide (c = 34) then Storage.quotEntity
  else if decide (c = 39) then Storage.aposEntity
  else [c].

(** Case analysis on membership in an explicit list. *)
Ltac in_list H :=
  repeat (apply elem_of_cons in H as [->|H]);
  try (by apply not_elem_of_nil in H); try lia.

(** * Properties of the state machine *)

Section GameProperties.

Import Game.

Lemma isValidMove_spec (s : state) (index : Z) :
  isValidMove s index = true
  ↔ gameOver s = false ∧ 0 ≤ index < 9 ∧ board s !! Z.to_nat index = Some EMPTY.
Proof.
  unfold isValidMove.
  rewrite !andb_true_iff, negb_true_iff, Z.leb_le, Z.ltb_lt, bool_decide_eq_true.
  tauto.
Qed.

Lemma makeMove_invalid (s : state) (index : Z) :
  isValidMove s index = false → makeMove s index = (false, s, []).
Proof. intros H. unfold makeMove. by rewrite H. Qed.

Lemma makeMove_valid (s : state) (index : Z) :
  isValidMove s index = true →
  ∃ s' events,
    makeMove s index = (true, s', events)
    ∧ board s' = <[Z.to_nat index := currentPlayer s]> (board s)
    ∧ board s' !! Z.to_nat index = Some (currentPlayer s)
    ∧ playerSymbol s' = playerSymbol s
    ∧ aiSymbol s' = aiSymbol s
    ∧ (gameOver s' = false → currentPlayer s' = otherPlayer (currentPlayer s)).
Proof.
  intros H. unfold makeMove. rewrite H. simpl.
  apply isValidMove_spec in H as (_ & _ & Hcell).
  assert (Hput : <[Z.to_nat index := currentPlayer s]> (board s) !! Z.to_nat index
                 = Some (currentPlayer s)).
  { apply list_lookup_insert_eq. by eapply lookup_lt_Some. }
  destruct (ended _); eexists _, _; (split; [reflexivity|]); simpl; by repeat split.
Qed.

(** C4. [makeMove] answers exactly what [isValidMove] answered just before
    (not over, index within 0..8, cell empty); when it succeeds the cell at
    the index holds the mark that was to move and no other cell changed;
    when it fails the state is the one before and nothing is notified. *)
Theorem makeMove_legal (s : state) (index : Z) :
  (isValidMove s index = true
   ↔ gameOver s = false ∧ 0 ≤ index < 9 ∧ board s !! Z.to_nat index = Some EMPTY)
  ∧ (makeMove s index).1.1 = isValidMove s index
  ∧ ((makeMove s index).1.1 = true →
       board (makeMove s index).1.2 = <[Z.to_nat index := currentPlayer s]> (board s)
       ∧ board (makeMove s index).1.2 !! Z.to_nat index = Some (currentPlayer s))
  ∧ ((makeMove s index).1.1 = false →
       (makeMove s index).1.2 = s ∧ (makeMove s index).2 = []).
Proof.
  split; [apply isValidMove_spec|].
  destruct (isValidMove s index) eqn:Hvalid.
  - destruct (makeMove_valid s index Hvalid) as (s' & ev & -> & Hb & Hc & _).
    simpl. by repeat split.
  - rewrite (makeMove_invalid s index Hvalid). simpl. by repeat split.
Qed.

End GameProperties.

Section TerminalCheck.

Import Game.

Lemma lineComplete_filled (b : list cell) (t : combo) :
  (is_Some (b !! t.1.1)) →
  lineComplete b t = true ↔ ∃ m, filled b t m.
Proof.
  destruct t as [[a1 a2] a3]. intros [m Hm]. unfold lineComplete, filled. simpl in *.
  rewrite !andb_true_iff, !bool_decide_eq_true. split.
  - intros [[Hne H2] H3]. exists m. rewrite <- H2, <- H3.
    repeat split; congruence.
  - intros (m' & Hne & H1 & H2 & H3). rewrite H1, H2, H3.
    repeat split; congruence.
Qed.

(** The scan of a list of triples stops at its first filled triple. *)
Lemma scanCombos_Some (b : list cell) (combos : list combo) (r : result) :
  (∀ t, t ∈ combos → is_Some (b !! t.1.1)) →
  scanCombos b combos = Some r
  ↔ ∃ before t after m,
      combos = before ++ t :: after
      ∧ filled b t m
      ∧ (∀ t' m', t' ∈ before → ¬ filled b t' m')
      ∧ r = Result true (Mark (Some m)) (Some t).
Proof.
  revert r. induction combos as [|[[a1 a2] a3] rest IH]; intros r Hrange.
  - simpl. split; [done|]. intros (before & t & after & m & Heq & _).
    by destruct before.
  - assert (Hhead := Hrange (a1, a2, a3) ltac:(left)).
    assert (Hrest : ∀ t, t ∈ rest → is_Some (b !! t.1.1)).
    { intros t Ht. apply Hrange. by right. }
    cbn [scanCombos].
    destruct (lineComplete b (a1, a2, a3)) eqn:Hline.
    + apply lineComplete_filled in Hline as [m Hm]; [|done]. split.
      * intros [= <-]. exists [], (a1, a2, a3), rest, m.
        split; [done|]. split; [done|]. split.
        -- intros t' m' Hin. by apply not_elem_of_nil in Hin.
        -- destruct Hm as (_ & H1 & _). simpl in H1. by rewrite H1.
      * intros (before & t & after & m' & Heq & Hfill & Hnone & ->).
        destruct before as [|t0 before]; simpl in Heq; injection Heq as <- ->.
        -- destruct Hfill as (_ & H1 & _). simpl in H1. by rewrite H1.
        -- exfalso. eapply Hnone; [left|exact Hm].
    + rewrite (IH r Hrest). split.
      * intros (before & t & after & m & -> & Hfill & Hnone & ->).
        exists ((a1, a2, a3) :: before), t, after, m.
        split; [done|]. split; [done|]. split; [|done].
        intros t' m' [->|Hin]%elem_of_cons Hf; [|by eapply Hnone].
        assert (lineComplete b (a1, a2, a3) = true); [|congruence].
        apply lineComplete_filled; eauto.
      * intros (before & t & after & m & Heq & Hfill & Hnone & ->).
        destruct before as [|t0 before]; simpl in Heq; injection Heq as <- ->.
        -- assert (lineComplete b (a1, a2, a3) = true); [|congruence].
           apply lineComplete_filled; eauto.
        -- exists before, t, after, m.
           split; [done|]. split; [done|]. split; [|done].
           intros t' m' Hin. apply Hnone. by right.
Qed.

Lemma scanCombos_None (b : list cell) (combos : list combo) :
  (∀ t, t ∈ combos → is_Some (b !! t.1.1)) →
  scanCombos b combos = None ↔ ∀ t m, t ∈ combos → ¬ filled b t m.
Proof.
  induction combos as [|[[a1 a2] a3] rest IH]; intros Hrange.
  - simpl. split; [|done]. intros _ t m Hin. by apply not_elem_of_nil in Hin.
  - assert (Hhead := Hrange (a1, a2, a3) ltac:(left)).
    assert (Hrest : ∀ t, t ∈ rest → is_Some (b !! t.1.1)).
    { intros t Ht. apply Hrange. by right. }
    cbn [scanCombos]. destruct (lineComplete b (a1, a2, a3)) eqn:Hline.
    + split; [done|]. intros Hnone.
      apply lineComplete_filled in Hline as [m Hm]; [|done].
      exfalso. eapply Hnone; [left|exact Hm].
    + rewrite (IH Hrest). split.
      * intros Hnone t m [->|Hin]%elem_of_cons Hf; [|by eapply Hnone].
        assert (lineComplete b (a1, a2, a3) = true); [|congruence].
        apply lineComplete_filled; eauto.
      * intros Hnone t m Hin. apply Hnone. by right.
Qed.

Lemma combos_in_range (b : list cell) :
  length b = 9%nat → ∀ t, t ∈ WINNING_COMBINATIONS → is_Some (b !! t.1.1).
Proof.
  intros Hlen t Hin. apply lookup_lt_is_Some. rewrite Hlen.
  unfold WINNING_COMBINATIONS in Hin.
  repeat (apply elem_of_cons in Hin as [->|Hin]; [simpl; lia|]).
  by apply not_elem_of_nil in Hin.
Qed.

Lemma everyNonEmpty_true (b : list cell) :
  everyNonEmpty b = true ↔ ∀ c, c ∈ b → c ≠ EMPTY.
Proof.
  unfold everyNonEmpty. rewrite forallb_forall. split.
  - intros H c Hin. apply list_elem_of_In in Hin.
    by apply H, bool_decide_eq_true in Hin.
  - intros H c Hin. apply bool_decide_eq_true, H. by apply list_elem_of_In.
Qed.



End TerminalCheck.

Section Alternation.

Import Game.

Lemma countMark_insert (b : list cell) (i : nat) (m placed : cell) :
  b !! i = Some EMPTY → m ≠ EMPTY →
  countMark m (<[i := placed]> b)
  = (countMark m b + if decide (placed = m) then 1 else 0)%nat.
Proof.
  unfold countMark. revert i. induction b as [|c b IH]; intros i Hi Hm; [done|].
  destruct i as [|i]; simpl in *.
  - injection Hi as ->. rewrite !filter_cons.
    destruct (decide (placed = m)), (decide (EMPTY = m)); simpl; try lia; congruence.
  - rewrite !filter_cons. destruct (decide (c = m)); simpl; rewrite IH by done; lia.
Qed.

Lemma markOfTurn_is_X (n o : nat) : n = (o + o)%nat → markOfTurn n = PLAYER_X.
Proof.
  intros ->. unfold markOfTurn. replace (o + o)%nat with (2 * o)%nat by lia.
  by rewrite Nat.even_even.
Qed.

Lemma markOfTurn_is_O (n o : nat) : n = S (o + o) → markOfTurn n = PLAYER_O.
Proof.
  intros ->. unfold markOfTurn. replace (S (o + o))%nat with (S (2 * o))%nat by lia.
  by rewrite Nat.even_succ, Nat.odd_even.
Qed.

Lemma balanced_init (p : cell) : balanced (init p).1.
Proof. unfold balanced. simpl. split; [by left|done]. Qed.

Lemma balanced_makeMove (s : state) (index : Z) :
  balanced s →
  balanced (makeMove s index).1.2
  ∧ ((makeMove s index).1.1 = true →
       board (makeMove s index).1.2 !! Z.to_nat index
       = Some (markOfTurn (countMark PLAYER_X (board s) + countMark PLAYER_O (board s)))
       ∧ (countMark PLAYER_X (board (makeMove s index).1.2)
          + countMark PLAYER_O (board (makeMove s index).1.2)
          = S (countMark PLAYER_X (board s) + countMark PLAYER_O (board s)))%nat).
Proof.
  intros [Hcount Hturn].
  destruct (isValidMove s index) eqn:Hv.
  - destruct (makeMove_valid s index Hv) as (s' & ev & -> & Hboard & Hcell & _ & _ & Hover).
    simpl. apply isValidMove_spec in Hv as (Hgo & _ & Hempty).
    specialize (Hturn Hgo).
    assert (HX := countMark_insert (board s) (Z.to_nat index) PLAYER_X
                    (currentPlayer s) Hempty ltac:(done)).
    assert (HO := countMark_insert (board s) (Z.to_nat index) PLAYER_O
                    (currentPlayer s) Hempty ltac:(done)).
    rewrite <- Hboard in HX, HO.
    rewrite Hcell. unfold balanced. rewrite HX, HO, Hturn.
    destruct Hcount as [Heq|Heq]; rewrite Heq in *.
    + rewrite (markOfTurn_is_X _ (countMark PLAYER_O (board s))) in * by lia. simpl.
      split; [split; [right; lia|]|split; [done|lia]].
      intros Hgo'. rewrite (Hover Hgo'), Hturn. symmetry.
      apply (markOfTurn_is_O _ (countMark PLAYER_O (board s))). lia.
    + rewrite (markOfTurn_is_O _ (countMark PLAYER_O (board s))) in * by lia. simpl.
      split; [split; [left; lia|]|split; [done|lia]].
      intros Hgo'. rewrite (Hover Hgo'), Hturn. symmetry.
      apply (markOfTurn_is_X _ (S (countMark PLAYER_O (board s)))). lia.
  - rewrite (makeMove_invalid s index Hv). simpl. split; [done|discriminate].
Qed.

(** Along a sequence of calls, from the [n] marks already placed on. *)
Lemma makeMoves_alternate (indices : list Z) (s : state) :
  balanced s →
  balanced (makeMoves s indices).1
  ∧ ∀ k m, (makeMoves s indices).2 !! k = Some m →
      m = markOfTurn (countMark PLAYER_X (board s) + countMark PLAYER_O (board s) + k).
Proof.
  revert s. induction indices as [|index rest IH]; intros s Hs.
  - simpl. split; [done|]. intros k m Hk. by rewrite lookup_nil in Hk.
  - simpl. destruct (balanced_makeMove s index Hs) as [Hs' Hplaced].
    destruct (makeMove s index) as [[ok s'] ev] eqn:Hmove. simpl in *.
    destruct (IH s' Hs') as [Hfinal Hmarks].
    destruct (makeMoves s' rest) as [final marks]. simpl in *.
    split; [done|]. intros k m Hk. destruct ok.
    + destruct (Hplaced eq_refl) as [Hcell Hn]. rewrite Hcell in Hk.
      destruct k as [|k]; simpl in Hk.
      * injection Hk as <-. by rewrite Nat.add_0_r.
      * apply Hmarks in Hk. rewrite Hn in Hk.
        by replace (_ + S k)%nat with (S (countMark PLAYER_X (board s)
                                        + countMark PLAYER_O (board s)) + k)%nat by lia.
    + assert (s' = s) as ->.
      { destruct (isValidMove s index) eqn:Hv.
        - destruct (makeMove_valid s index Hv) as (? & ? & Heq & _). congruence.
        - rewrite (makeMove_invalid s index Hv) in Hmove. congruence. }
      by apply Hmarks.
Qed.

(** C8. Whatever the calls made on a fresh session, the marks that reach
    the board are X, O, X, O, ... in this order, and at the end the board
    holds as many X as O, or one X more. *)
Theorem marks_alternate (playerSymbol : cell) (indices : list Z) :
  (∀ k m, (makeMoves (init playerSymbol).1 indices).2 !! k = Some m →
          m = markOfTurn k)
  ∧ (countMark PLAYER_X (board (makeMoves (init playerSymbol).1 indices).1)
     = countMark PLAYER_O (board (makeMoves (init playerSymbol).1 indices).1)
     ∨ countMark PLAYER_X (board (makeMoves (init playerSymbol).1 indices).1)
       = S (countMark PLAYER_O (board (makeMoves (init playerSymbol).1 indices).1))).
Proof.
  destruct (makeMoves_alternate indices _ (balanced_init playerSymbol))
    as [[Hcount _] Hmarks].
  split; [|done]. intros k m Hk. by apply Hmarks in Hk.
Qed.

End Alternation.

(** * Properties of the engine *)

(** ** Empty cells *)

Section EmptyCells.

Import AI.

Lemma emptyCellsFrom_elem (cells : list cell) (k i : nat) :
  i ∈ emptyCellsFrom k cells ↔ (k ≤ i)%nat ∧ cells !! (i - k)%nat = Some EMPTY.
Proof.
  revert k. induction cells as [|c rest IH]; intros k; simpl.
  - rewrite elem_of_nil. split; [done|]. intros [_ H]. by rewrite lookup_nil in H.
  - assert (Hrest : i ∈ emptyCellsFrom (S k) rest
                    ↔ (k < i)%nat ∧ (c :: rest) !! (i - k)%nat = Some EMPTY).
    { rewrite IH. split; intros [Hle H]; (split; [lia|]).
      - by replace (i - k)%nat with (S (i - S k)) by lia.
      - by replace (i - k)%nat with (S (i - S k)) in H by lia. }
    destruct (decide (c = EMPTY)) as [->|Hc].
    + rewrite elem_of_cons, Hrest. split.
      * intros [->|[Hlt H]]; [|split; [lia|done]].
        split; [lia|]. by rewrite Nat.sub_diag.
      * intros [Hle H]. destruct (decide (i = k)) as [->|]; [by left|right].
        split; [lia|done].
    + rewrite Hrest. split; intros [Hle H]; (split; [|done]); [lia|].
      destruct (decide (i = k)) as [->|]; [|lia].
      rewrite Nat.sub_diag in H. simpl in H. congruence.
Qed.

Lemma getEmptyCells_elem (b : list cell) (i : nat) :
  i ∈ getEmptyCells b ↔ b !! i = Some EMPTY.
Proof.
  unfold getEmptyCells. rewrite emptyCellsFrom_elem, Nat.sub_0_r.
  split; [by intros [_ ?]|]. split; [lia|done].
Qed.

Lemma emptyCellsFrom_length (cells : list cell) (k : nat) :
  length (emptyCellsFrom k cells) = countMark EMPTY cells.
Proof.
  unfold countMark. revert k. induction cells as [|c rest IH]; intros k; [done|].
  simpl. rewrite filter_cons. destruct (decide (c = EMPTY)); simpl; by rewrite IH.
Qed.

Lemma countMark_EMPTY_insert (b : list cell) (i : nat) (m : cell) :
  b !! i = Some EMPTY → m ≠ EMPTY →
  S (countMark EMPTY (<[i := m]> b)) = countMark EMPTY b.
Proof.
  unfold countMark. revert i. induction b as [|c b IH]; intros i Hi Hm; [done|].
  destruct i as [|i]; simpl in *.
  - injection Hi as ->. rewrite !filter_cons.
    destruct (decide (m = EMPTY)); [done|]. by destruct (decide (EMPTY = EMPTY)).
  - rewrite !filter_cons. destruct (decide (c = EMPTY)); simpl; by rewrite <- (IH i).
Qed.

(** A move fills one empty cell. *)
Lemma getEmptyCells_insert (b : list cell) (i : nat) (m : cell) :
  b !! i = Some EMPTY → m ≠ EMPTY →
  S (length (getEmptyCells (<[i := m]> b))) = length (getEmptyCells b).
Proof.
  intros. unfold getEmptyCells. rewrite !emptyCellsFrom_length.
  by apply countMark_EMPTY_insert.
Qed.

Lemma isBoardFull_getEmptyCells (b : list cell) :
  isBoardFull b = true ↔ getEmptyCells b = [].
Proof.
  unfold isBoardFull. rewrite everyNonEmpty_true. split.
  - intros Hfull. destruct (getEmptyCells b) as [|i rest] eqn:Heq; [done|].
    assert (Hi : i ∈ getEmptyCells b) by (rewrite Heq; left).
    apply getEmptyCells_elem, list_elem_of_lookup_2, Hfull in Hi. done.
  - intros Heq c [i Hi]%list_elem_of_lookup_1 ->.
    apply getEmptyCells_elem in Hi. rewrite Heq in Hi. by apply not_elem_of_nil in Hi.
Qed.

End EmptyCells.

(** ** What the store-level functions compute

    Run on a store in which the array holds [b], each function produces
    what its value-level counterpart produces on [b], and the store it
    leaves is the one it found: every write is undone. *)

Section Runs.

Import AI.

Lemma try_undo (σ : gmap nat (list cell)) (r : ref) (b : list cell) (i : nat)
    (m : cell) :
  σ !! r = Some b → b !! i = Some EMPTY →
  <[r := <[i := EMPTY]> (<[i := m]> b)]> (<[r := <[i := m]> b]> σ) = σ.
Proof.
  intros Hr Hi.
  by rewrite insert_insert_eq, list_insert_insert_eq, list_insert_id, insert_id.
Qed.

Section Loops.

Context (r : ref) (b : list cell).
Context (childS : number → number → M number).
Context (childV : list cell → number → number → option number).
Context (Hchild : ∀ b' alpha beta σ, σ !! r = Some b' →
           childS alpha beta σ = (λ s, (s, σ)) <$> childV b' alpha beta).

Lemma maximize_run (beta : number) (cells : list nat) (bestScore alpha : number)
    (σ : gmap nat (list cell)) :
  σ !! r = Some b →
  (∀ i, i ∈ cells → b !! i = Some EMPTY) →
  maximize r childS beta cells bestScore alpha σ
  = (λ s, (s, σ)) <$> Value.maximize b childV beta cells bestScore alpha.
Proof.
  intros Hr. revert bestScore alpha.
  induction cells as [|i rest IH]; intros bestScore alpha Hcells; [done|].
  assert (Hi : b !! i = Some EMPTY) by (apply Hcells; left).
  cbn [maximize Value.maximize].
  unfold mbind at 1, M_bind at 1, writeCell at 1. rewrite Hr.
  unfold mbind at 1, M_bind at 1.
  rewrite (Hchild (<[i := PLAYER_O]> b)) by apply lookup_insert_eq.
  destruct (childV _ alpha beta) as [score|]; [|done]. simpl.
  unfold mbind at 1, M_bind at 1, writeCell at 1.
  rewrite lookup_insert_eq, (try_undo σ r b i PLAYER_O Hr Hi).
  destruct (number_le _ _); [done|].
  apply IH. intros j Hj. apply Hcells. by right.
Qed.

Lemma minimize_run (alpha : number) (cells : list nat) (bestScore beta : number)
    (σ : gmap nat (list cell)) :
  σ !! r = Some b →
  (∀ i, i ∈ cells → b !! i = Some EMPTY) →
  minimize r childS alpha cells bestScore beta σ
  = (λ s, (s, σ)) <$> Value.minimize b childV alpha cells bestScore beta.
Proof.
  intros Hr. revert bestScore beta.
  induction cells as [|i rest IH]; intros bestScore beta Hcells; [done|].
  assert (Hi : b !! i = Some EMPTY) by (apply Hcells; left).
  cbn [minimize Value.minimize].
  unfold mbind at 1, M_bind at 1, writeCell at 1. rewrite Hr.
  unfold mbind at 1, M_bind at 1.
  rewrite (Hchild (<[i := PLAYER_X]> b)) by apply lookup_insert_eq.
  destruct (childV _ alpha beta) as [score|]; [|done]. simpl.
  unfold mbind at 1, M_bind at 1, writeCell at 1.
  rewrite lookup_insert_eq, (try_undo σ r b i PLAYER_X Hr Hi).
  destruct (number_le _ _); [done|].
  apply IH. intros j Hj. apply Hcells. by right.
Qed.

End Loops.

Lemma minimax_run (fuel : nat) (r : ref) (depth : Z) (isMaximizing : bool)
    (alpha beta : number) (b : list cell) (σ : gmap nat (list cell)) :
  σ !! r = Some b →
  minimax fuel r depth isMaximizing alpha beta σ
  = (λ s, (s, σ)) <$> Value.minimax fuel b depth isMaximizing alpha beta.
Proof.
  revert depth isMaximizing alpha beta b σ.
  induction fuel as [|fuel IH]; intros depth isMaximizing alpha beta b σ Hr; [done|].
  cbn [minimax Value.minimax].
  unfold mbind at 1, M_bind at 1, readArray at 1. rewrite Hr.
  repeat (case_decide; [done|]).
  destruct (isBoardFull b); [done|].
  destruct isMaximizing.
  - apply maximize_run; [|done|intros i; apply getEmptyCells_elem].
    intros. by apply IH.
  - apply minimize_run; [|done|intros i; apply getEmptyCells_elem].
    intros. by apply IH.
Qed.

Lemma scoreMove_run (fuel : nat) (r : ref) (index : nat) (b : list cell)
    (σ : gmap nat (list cell)) :
  σ !! r = Some b → b !! index = Some EMPTY →
  scoreMove fuel r index σ = (λ s, (s, σ)) <$> Value.scoreMove fuel b index.
Proof.
  intros Hr Hi. unfold scoreMove, Value.scoreMove.
  unfold mbind at 1, M_bind at 1, writeCell at 1. rewrite Hr.
  unfold mbind at 1, M_bind at 1.
  rewrite (minimax_run _ _ _ _ _ _ (<[index := PLAYER_O]> b)) by apply lookup_insert_eq.
  destruct (Value.minimax _ _ _ _ _ _) as [score|]; [|done]. simpl.
  unfold mbind at 1, M_bind at 1, writeCell at 1.
  by rewrite lookup_insert_eq, (try_undo σ r b index PLAYER_O Hr Hi).
Qed.

Lemma searchMoves_run (fuel : nat) (r : ref) (cells : list nat)
    (bestScore : number) (bestMove : move) (b : list cell)
    (σ : gmap nat (list cell)) :
  σ !! r = Some b →
  (∀ i, i ∈ cells → b !! i = Some EMPTY) →
  searchMoves fuel r cells bestScore bestMove σ
  = (λ m, (m, σ)) <$> Value.searchMoves fuel b cells bestScore bestMove.
Proof.
  intros Hr. revert bestScore bestMove.
  induction cells as [|i rest IH]; intros bestScore bestMove Hcells; [done|].
  cbn [searchMoves Value.searchMoves].
  unfold mbind at 1, M_bind at 1.
  rewrite (scoreMove_run fuel r i b σ Hr) by (apply Hcells; left).
  destruct (Value.scoreMove fuel b i) as [score|]; [|done]. simpl.
  destruct (number_gt _ _); apply IH; intros j Hj; apply Hcells; by right.
Qed.

(** [findBestMove] leaves the store it found, extended by its copy of the
    board, whose contents are again those of the board. *)
Lemma findBestMove_run (rnd : nat → nat) (r : ref) (b : list cell)
    (σ : gmap nat (list cell)) :
  σ !! r = Some b →
  findBestMove rnd r σ
  = (λ m, (m, <[fresh (dom σ) := b]> σ)) <$> Value.findBestMove rnd b.
Proof.
  intros Hr. unfold findBestMove, Value.findBestMove.
  unfold mbind at 1, M_bind at 1, copyArray.
  unfold mbind at 1, M_bind at 1, readArray at 1. rewrite Hr.
  unfold allocArray at 1.
  unfold mbind at 1, M_bind at 1, readArray at 1. rewrite lookup_insert_eq.
  repeat (case_decide; [done|]).
  destruct (_ && _); [done|].
  apply searchMoves_run; [apply lookup_insert_eq|].
  intros i. apply getEmptyCells_elem.
Qed.

Lemma findRandomMove_run (rnd : nat → nat) (r : ref) (b : list cell)
    (σ : gmap nat (list cell)) :
  σ !! r = Some b →
  findRandomMove rnd r σ = Some (Value.findRandomMove rnd b, σ).
Proof.
  intros Hr. unfold findRandomMove, Value.findRandomMove.
  unfold mbind at 1, M_bind at 1, readArray at 1. rewrite Hr.
  by case_decide.
Qed.

End Runs.

(** ** The search terminates, with a finite score *)

Section Totality.

Import AI.

Lemma Math_max_Num (s z : Z) : ∃ z', Math_max (Num s) (Num z) = Num z'.
Proof. unfold Math_max. simpl. destruct (s <=? z); eauto. Qed.

Lemma Math_min_Num (s z : Z) : ∃ z', Math_min (Num s) (Num z) = Num z'.
Proof. unfold Math_min. simpl. destruct (s <=? z); eauto. Qed.

Section Loops.

Context (b : list cell) (child : list cell → number → number → option number).

Lemma maximize_Num (beta : number) (cells : list nat) (z0 : Z) (alpha : number) :
  (∀ i a, i ∈ cells → ∃ z, child (<[i := PLAYER_O]> b) a beta = Some (Num z)) →
  ∃ z, Value.maximize b child beta cells (Num z0) alpha = Some (Num z).
Proof.
  revert z0 alpha. induction cells as [|i rest IH]; intros z0 alpha Hchild.
  - simpl. eauto.
  - cbn [Value.maximize].
    destruct (Hchild i alpha ltac:(left)) as [s ->]. simpl.
    destruct (Math_max_Num s z0) as [z' ->].
    destruct (number_le _ _); [eauto|].
    apply IH. intros j a Hj. apply Hchild. by right.
Qed.

Lemma maximize_total (beta : number) (cells : list nat) (alpha : number) :
  cells ≠ [] →
  (∀ i a, i ∈ cells → ∃ z, child (<[i := PLAYER_O]> b) a beta = Some (Num z)) →
  ∃ z, Value.maximize b child beta cells NegInfinity alpha = Some (Num z).
Proof.
  destruct cells as [|i rest]; [done|]. intros _ Hchild.
  cbn [Value.maximize].
  destruct (Hchild i alpha ltac:(left)) as [s ->]. simpl.
  change (Math_max (Num s) NegInfinity) with (Num s).
  destruct (number_le _ _); [eauto|].
  apply maximize_Num. intros j a Hj. apply Hchild. by right.
Qed.

Lemma minimize_Num (alpha : number) (cells : list nat) (z0 : Z) (beta : number) :
  (∀ i a, i ∈ cells → ∃ z, child (<[i := PLAYER_X]> b) alpha a = Some (Num z)) →
  ∃ z, Value.minimize b child alpha cells (Num z0) beta = Some (Num z).
Proof.
  revert z0 beta. induction cells as [|i rest IH]; intros z0 beta Hchild.
  - simpl. eauto.
  - cbn [Value.minimize].
    destruct (Hchild i beta ltac:(left)) as [s ->]. simpl.
    destruct (Math_min_Num s z0) as [z' ->].
    destruct (number_le _ _); [eauto|].
    apply IH. intros j a Hj. apply Hchild. by right.
Qed.

Lemma minimize_total (alpha : number) (cells : list nat) (beta : number) :
  cells ≠ [] →
  (∀ i a, i ∈ cells → ∃ z, child (<[i := PLAYER_X]> b) alpha a = Some (Num z)) →
  ∃ z, Value.minimize b child alpha cells Infinity beta = Some (Num z).
Proof.
  destruct cells as [|i rest]; [done|]. intros _ Hchild.
  cbn [Value.minimize].
  destruct (Hchild i beta ltac:(left)) as [s ->]. simpl.
  change (Math_min (Num s) Infinity) with (Num s).
  destruct (number_le _ _); [eauto|].
  apply minimize_Num. intros j a Hj. apply Hchild. by right.
Qed.

End Loops.

(** With more fuel than empty cells, [minimax] returns an integer. *)
Lemma minimax_total (fuel : nat) (b : list cell) (depth : Z) (isMaximizing : bool)
    (alpha beta : number) :
  (length (getEmptyCells b) < fuel)%nat →
  ∃ z, Value.minimax fuel b depth isMaximizing alpha beta = Some (Num z).
Proof.
  revert b depth isMaximizing alpha beta.
  induction fuel as [|fuel IH]; intros b depth isMaximizing alpha beta Hfuel; [lia|].
  cbn [Value.minimax].
  repeat (case_decide; [eauto|]).
  destruct (isBoardFull b) eqn:Hfull; [eauto|].
  assert (Hne : getEmptyCells b ≠ []).
  { intros Heq. apply isBoardFull_getEmptyCells in Heq. congruence. }
  assert (Hless : ∀ i m, i ∈ getEmptyCells b → m ≠ EMPTY →
                         (length (getEmptyCells (<[i := m]> b)) < fuel)%nat).
  { intros i m Hi Hm. apply getEmptyCells_elem in Hi.
    pose proof (getEmptyCells_insert b i m Hi Hm). lia. }
  destruct isMaximizing.
  - apply maximize_total; [done|]. intros i a Hi. by apply IH, Hless.
  - apply minimize_total; [done|]. intros i a Hi. by apply IH, Hless.
Qed.

Lemma scoreMove_total (b : list cell) (index : nat) :
  b !! index = Some EMPTY →
  ∃ z, Value.scoreMove (fuelFor (getEmptyCells b)) b index = Some (Num z).
Proof.
  intros Hi. apply minimax_total. unfold fuelFor.
  pose proof (getEmptyCells_insert b index PLAYER_O Hi ltac:(done)). lia.
Qed.

End Totality.

(** ** The move that is answered *)

Section Answer.

Import AI.

Lemma searchMoves_result (fuel : nat) (b : list cell) (cells : list nat)
    (bestScore : number) (bestMove : move) :
  (∀ i, i ∈ cells → ∃ z, Value.scoreMove fuel b i = Some (Num z)) →
  ∃ m, Value.searchMoves fuel b cells bestScore bestMove = Some m
       ∧ (m = bestMove ∨ ∃ i, m = Index i ∧ i ∈ cells).
Proof.
  revert bestScore bestMove.
  induction cells as [|i rest IH]; intros bestScore bestMove Hscore.
  - simpl. eauto.
  - cbn [Value.searchMoves]. destruct (Hscore i ltac:(left)) as [z ->]. cbn [mbind option_bind].
    assert (Hrest : ∀ j, j ∈ rest → ∃ z, Value.scoreMove fuel b j = Some (Num z)).
    { intros j Hj. apply Hscore. by right. }
    destruct (number_gt (Num z) bestScore).
    + destruct (IH (Num z) (Index i) Hrest) as (m & -> & [->|(j & -> & Hj)]).
      * eexists. split; [done|]. right. exists i. split; [done|left].
      * eexists. split; [done|]. right. exists j. split; [done|by right].
    + destruct (IH bestScore bestMove Hrest) as (m & -> & [->|(j & -> & Hj)]).
      * eexists. split; [done|]. by left.
      * eexists. split; [done|]. right. exists j. split; [done|by right].
Qed.

(** The first candidate always beats [-Infinity]. *)
Lemma searchMoves_index (fuel : nat) (b : list cell) (cells : list nat)
    (bestMove : move) :
  cells ≠ [] →
  (∀ i, i ∈ cells → ∃ z, Value.scoreMove fuel b i = Some (Num z)) →
  ∃ i, Value.searchMoves fuel b cells NegInfinity bestMove = Some (Index i)
       ∧ i ∈ cells.
Proof.
  destruct cells as [|i rest]; [done|]. intros _ Hscore.
  cbn [Value.searchMoves]. destruct (Hscore i ltac:(left)) as [z ->]. cbn [mbind option_bind].
  change (number_gt (Num z) NegInfinity) with true. cbn iota.
  destruct (searchMoves_result fuel b rest (Num z) (Index i))
    as (m & -> & [->|(j & -> & Hj)]).
  - intros j Hj. apply Hscore. by right.
  - exists i. split; [done|left].
  - exists j. split; [done|by right].
Qed.

Lemma emptyCellsFrom_NoDup (cells : list cell) (k : nat) :
  NoDup (emptyCellsFrom k cells).
Proof.
  revert k. induction cells as [|c rest IH]; intros k; simpl; [constructor|].
  destruct (decide (c = EMPTY)); [|done].
  constructor; [|done]. rewrite emptyCellsFrom_elem. lia.
Qed.

(** A board whose [n] cells are all listed by [getEmptyCells], but for the
    cells in [skip], has every other cell empty. *)
Lemma getEmptyCells_all (b : list cell) (others : list nat) (i : nat) :
  (∀ j, j ∈ getEmptyCells b → j ∈ others) →
  (length others ≤ length (getEmptyCells b))%nat →
  i ∈ others → b !! i = Some EMPTY.
Proof.
  intros Hsub Hlen Hi. apply getEmptyCells_elem.
  assert (Hperm : getEmptyCells b ≡ₚ others).
  { apply submseteq_length_Permutation; [|done].
    apply NoDup_submseteq; [apply emptyCellsFrom_NoDup|done]. }
  by rewrite Hperm.
Qed.

Lemma getEmptyCells_lt (b : list cell) (i : nat) :
  i ∈ getEmptyCells b → (i < length b)%nat.
Proof. intros Hi%getEmptyCells_elem. by eapply lookup_lt_Some. Qed.

Lemma elem_of_seq_9 (i : nat) :
  (i < 9)%nat → i ∈ [0; 1; 2; 3; 4; 5; 6; 7; 8]%nat.
Proof.
  intros Hi. do 9 (destruct i as [|i]; [repeat constructor|]). lia.
Qed.

Lemma firstMoves_empty (b : list cell) (i : nat) :
  length b = 9%nat → length (getEmptyCells b) = 9%nat →
  i ∈ [0; 2; 4; 6; 8]%nat → b !! i = Some EMPTY.
Proof.
  intros Hb He Hi.
  apply (getEmptyCells_all b [0; 1; 2; 3; 4; 5; 6; 7; 8]%nat).
  - intros j Hj%getEmptyCells_lt. apply elem_of_seq_9. lia.
  - rewrite He. simpl. lia.
  - in_list Hi; repeat constructor.
Qed.

Lemma corners_empty (b : list cell) (i : nat) :
  length b = 9%nat → length (getEmptyCells b) = 8%nat → b !! 4%nat ≠ Some EMPTY →
  i ∈ [0; 2; 6; 8]%nat → b !! i = Some EMPTY.
Proof.
  intros Hb He Hcentre Hi.
  apply (getEmptyCells_all b [0; 1; 2; 3; 5; 6; 7; 8]%nat).
  - intros j Hj. pose proof (getEmptyCells_lt b j Hj) as Hlt.
    apply getEmptyCells_elem in Hj.
    assert (j ≠ 4%nat) by congruence.
    rewrite Hb in Hlt. apply elem_of_seq_9 in Hlt.
    in_list Hlt; first [done | repeat constructor].
  - rewrite He. simpl. lia.
  - in_list Hi; repeat constructor.
Qed.

Lemma pick_valid (array : list nat) (k : nat) :
  (k < length array)%nat → ∃ i, pick array k = Index i ∧ i ∈ array.
Proof.
  intros Hk. unfold pick. destruct (lookup_lt_is_Some_2 array k Hk) as [i Hi].
  rewrite Hi. exists i. split; [done|]. by eapply list_elem_of_lookup_2.
Qed.

(** [findBestMove] always answers. *)
Lemma findBestMove_total (rnd : nat → nat) (b : list cell) :
  ∃ m, Value.findBestMove rnd b = Some m.
Proof.
  unfold Value.findBestMove.
  destruct (decide (_ = 0%nat)); [eauto|]. destruct (decide (_ = 9%nat)); [eauto|].
  destruct (_ && _); [eauto|].
  destruct (searchMoves_result (fuelFor (getEmptyCells b)) b (getEmptyCells b)
              NegInfinity NoMove) as (m & -> & _); [|by eauto].
  intros i Hi%getEmptyCells_elem. by apply scoreMove_total.
Qed.

(** On a board of nine cells it answers [null] exactly when no cell is
    empty, and otherwise the index of an empty cell. *)
Lemma findBestMove_answer (rnd : nat → nat) (b : list cell) :
  validRandom rnd → length b = 9%nat →
  ∃ m, Value.findBestMove rnd b = Some m
       ∧ (m = NoMove ↔ getEmptyCells b = [])
       ∧ (getEmptyCells b ≠ [] → ∃ i, m = Index i ∧ b !! i = Some EMPTY).
Proof.
  intros Hrnd Hb. unfold Value.findBestMove.
  destruct (decide (length (getEmptyCells b) = 0%nat)) as [H0|H0].
  { apply length_zero_iff_nil in H0. eexists. split; [done|]. split; [done|].
    by intros []. }
  assert (Hne : getEmptyCells b ≠ []) by (intros Heq; by rewrite Heq in H0).
  destruct (decide (length (getEmptyCells b) = 9%nat)) as [H9|H9].
  { destruct (pick_valid [0; 2; 4; 6; 8]%nat (rnd 5%nat)) as (i & Hi & Hin).
    { apply Hrnd. simpl. lia. }
    simpl length. rewrite Hi. eexists. split; [done|]. split; [done|].
    intros _. exists i. split; [done|]. by apply firstMoves_empty. }
  destruct (bool_decide (length (getEmptyCells b) = 8%nat)
            && bool_decide (b !! 4%nat ≠ Some EMPTY)) eqn:H8.
  { apply andb_true_iff in H8 as [H8 Hc]. apply bool_decide_eq_true in H8, Hc.
    destruct (pick_valid [0; 2; 6; 8]%nat (rnd 4%nat)) as (i & Hi & Hin).
    { apply Hrnd. simpl. lia. }
    simpl length. rewrite Hi. eexists. split; [done|]. split; [done|].
    intros _. exists i. split; [done|]. by apply corners_empty. }
  destruct (searchMoves_index (fuelFor (getEmptyCells b)) b (getEmptyCells b)
              NoMove Hne) as (i & -> & Hi).
  { intros i Hi%getEmptyCells_elem. by apply scoreMove_total. }
  eexists. split; [done|]. split; [done|].
  intros _. exists i. split; [done|]. by apply getEmptyCells_elem.
Qed.

Lemma findRandomMove_answer (rnd : nat → nat) (b : list cell) :
  validRandom rnd →
  (Value.findRandomMove rnd b = NoMove ↔ getEmptyCells b = [])
  ∧ (getEmptyCells b ≠ [] →
       ∃ i, Value.findRandomMove rnd b = Index i ∧ b !! i = Some EMPTY).
Proof.
  intros Hrnd. unfold Value.findRandomMove.
  destruct (decide (length (getEmptyCells b) = 0%nat)) as [H0|H0].
  { apply length_zero_iff_nil in H0. split; [done|]. by intros []. }
  assert (Hne : getEmptyCells b ≠ []) by (intros Heq; by rewrite Heq in H0).
  destruct (pick_valid (getEmptyCells b) (rnd (length (getEmptyCells b))))
    as (i & -> & Hin).
  { apply Hrnd. lia. }
  split; [done|]. intros _. exists i. split; [done|]. by apply getEmptyCells_elem.
Qed.

Lemma getEmptyCells_nil (b : list cell) :
  getEmptyCells b = [] ↔ ∀ i, b !! i ≠ Some EMPTY.
Proof.
  split.
  - intros Heq i Hi%getEmptyCells_elem. rewrite Heq in Hi.
    by apply not_elem_of_nil in Hi.
  - intros Hnone. destruct (getEmptyCells b) as [|i rest] eqn:Heq; [done|].
    exfalso. apply (Hnone i), getEmptyCells_elem. rewrite Heq. left.
Qed.

(** C7. For a board of nine cells and either strategy, the engine answers
    (it does not fail), the answer is [null] exactly when the board has no
    empty cell, and an answer other than [null] is the index of a cell that
    is empty on the board. *)
Theorem engine_answers_empty_cell (rnd : nat → nat) (board : ref) (delay : Z)
    (d : difficulty) (surplus : list cell) (b : list cell)
    (σ : gmap nat (list cell)) :
  validRandom rnd → length b = 9%nat → σ !! board = Some b →
  ∃ m σ',
    getMoveWithDifficultyAndDelay rnd board delay d surplus σ = Some (m, σ')
    ∧ (m = NoMove ↔ ∀ i, b !! i ≠ Some EMPTY)
    ∧ (m ≠ NoMove → ∃ i, m = Index i ∧ b !! i = Some EMPTY).
Proof.
  intros Hrnd Hb Hr. setoid_rewrite <- (getEmptyCells_nil b).
  assert (Hbest : ∃ m σ',
    findBestMove rnd board σ = Some (m, σ')
    ∧ (m = NoMove ↔ getEmptyCells b = [])
    ∧ (m ≠ NoMove → ∃ i, m = Index i ∧ b !! i = Some EMPTY)).
  { rewrite (findBestMove_run rnd board b σ Hr).
    destruct (findBestMove_answer rnd b Hrnd Hb) as (m & -> & Hnull & Hidx).
    eexists _, _. split; [done|]. split; [done|].
    intros Hm. apply Hidx. by rewrite <- Hnull. }
  destruct d; simpl; try done.
  rewrite (findRandomMove_run rnd board b σ Hr).
  destruct (findRandomMove_answer rnd b Hrnd) as [Hnull Hidx].
  eexists _, _. split; [done|]. split; [done|].
  intros Hm. apply Hidx. by rewrite <- Hnull.
Qed.

Lemma engine_answers_empty_cell_witness :
  validRandom (λ _, 0%nat)
  ∧ length scenario2 = 9%nat
  ∧ ({[0%nat := scenario2]} : gmap nat (list cell)) !! 0%nat = Some scenario2
  ∧ ∃ m σ',
      getMoveWithDifficultyAndDelay (λ _, 0%nat) 0%nat 400 hard [PLAYER_O]
        {[0%nat := scenario2]} = Some (m, σ')
      ∧ (m = NoMove ↔ ∀ i, scenario2 !! i ≠ Some EMPTY)
      ∧ (m ≠ NoMove → ∃ i, m = Index i ∧ scenario2 !! i = Some EMPTY).
Proof.
  assert (Hrnd : validRandom (λ _, 0%nat)) by (intros n Hn; lia).
  split; [exact Hrnd|]. split; [reflexivity|]. split; [reflexivity|].
  apply engine_answers_empty_cell; [exact Hrnd|reflexivity|reflexivity].
Defined.

End Answer.

(** ** The caller's board *)

Section Frame.

Import AI.

(** C9. The engine does not change the board it is given.  Whatever the
    strategy, the call answers, and in the store it leaves every array
    that existed before, the caller's board among them, holds what it held:
    the store is the old one, extended (Optimal strategy) by the engine's
    own copy, which again holds the contents of the board.  And [minimax],
    run on an array, returns with the array restored cell by cell. *)
Theorem engine_keeps_board (rnd : nat → nat) (board : ref) (delay : Z)
    (d : difficulty) (surplus : list cell) (b : list cell)
    (σ : gmap nat (list cell)) :
  σ !! board = Some b →
  (∃ m σ',
     getMoveWithDifficultyAndDelay rnd board delay d surplus σ = Some (m, σ')
     ∧ σ' !! board = Some b
     ∧ (∀ r, r ∈ dom σ → σ' !! r = σ !! r)
     ∧ (σ' = σ ∨ σ' = <[fresh (dom σ) := b]> σ))
  ∧ (∀ fuel depth isMaximizing alpha beta,
       (length (getEmptyCells b) < fuel)%nat →
       ∃ z, minimax fuel board depth isMaximizing alpha beta σ = Some (Num z, σ)).
Proof.
  intros Hr. split.
  - assert (Hfresh : ∀ r, r ∈ dom σ → <[fresh (dom σ) := b]> σ !! r = σ !! r).
    { intros r Hin. apply lookup_insert_ne. intros <-.
      exact (is_fresh (dom σ) Hin). }
    assert (Hbest : ∃ m σ',
      findBestMove rnd board σ = Some (m, σ')
      ∧ σ' !! board = Some b
      ∧ (∀ r, r ∈ dom σ → σ' !! r = σ !! r)
      ∧ (σ' = σ ∨ σ' = <[fresh (dom σ) := b]> σ)).
    { rewrite (findBestMove_run rnd board b σ Hr).
      destruct (findBestMove_total rnd b) as [m ->].
      eexists _, _. split; [done|]. split; [|split; [done|by right]].
      rewrite Hfresh; [done|]. apply elem_of_dom. eauto. }
    destruct d; simpl; try done.
    rewrite (findRandomMove_run rnd board b σ Hr).
    eexists _, _. split; [done|]. split; [done|]. split; [done|by left].
  - intros fuel depth isMaximizing alpha beta Hfuel.
    rewrite (minimax_run fuel board depth isMaximizing alpha beta b σ Hr).
    destruct (minimax_total fuel b depth isMaximizing alpha beta Hfuel) as [z ->].
    by exists z.
Qed.

Lemma engine_keeps_board_witness :
  ({[0%nat := scenario2]} : gmap nat (list cell)) !! 0%nat = Some scenario2
  ∧ (∃ m σ',
       getMoveWithDifficultyAndDelay (λ _, 0%nat) 0%nat 400 hard [PLAYER_O]
         {[0%nat := scenario2]} = Some (m, σ')
       ∧ σ' !! 0%nat = Some scenario2
       ∧ (∀ r, r ∈ dom ({[0%nat := scenario2]} : gmap nat (list cell)) →
               σ' !! r = ({[0%nat := scenario2]} : gmap nat (list cell)) !! r)
       ∧ (σ' = {[0%nat := scenario2]}
          ∨ σ' = <[fresh (dom ({[0%nat := scenario2]} : gmap nat (list cell)))
                   := scenario2]> {[0%nat := scenario2]}))
    ∧ (∀ fuel depth isMaximizing alpha beta,
         (length (getEmptyCells scenario2) < fuel)%nat →
         ∃ z, minimax fuel 0%nat depth isMaximizing alpha beta
                {[0%nat := scenario2]}
              = Some (Num z, {[0%nat := scenario2]})).
Proof.
  split; [reflexivity|].
  apply (engine_keeps_board (λ _, 0%nat) 0%nat 400 hard [PLAYER_O] scenario2).
  reflexivity.
Defined.

End Frame.

(** ** The scenarios of the design document *)

Section Scenarios.

Import AI.

(** C2, as the code has it.  On X X _ / O O _ / _ _ _ the engine, playing
    O, answers 5: it completes its own row 3-4-5 and wins at once, rather
    than blocking at 2. *)
Theorem scenario2_wins_at_5 (rnd : nat → nat) (board : ref)
    (σ : gmap nat (list cell)) :
  σ !! board = Some scenario2 →
  (∃ σ', findBestMove rnd board σ = Some (Index 5, σ'))
  ∧ checkWinner (<[5%nat := PLAYER_O]> scenario2) = Read (Some PLAYER_O).
Proof.
  intros Hr. split; [|done].
  rewrite (findBestMove_run rnd board scenario2 σ Hr).
  assert (Value.findBestMove rnd scenario2 = Some (Index 5)) as -> by by vm_compute.
  eauto.
Qed.

Lemma scenario2_wins_at_5_witness :
  ({[0%nat := scenario2]} : gmap nat (list cell)) !! 0%nat = Some scenario2
  ∧ (∃ σ', findBestMove (λ _, 0%nat) 0%nat {[0%nat := scenario2]}
           = Some (Index 5, σ'))
    ∧ checkWinner (<[5%nat := PLAYER_O]> scenario2) = Read (Some PLAYER_O).
Proof.
  split; [reflexivity|].
  apply (scenario2_wins_at_5 (λ _, 0%nat) 0%nat). reflexivity.
Defined.

(** C2, as the design document has it, fails: on this board the engine
    does not answer the blocking cell 2. *)
Lemma scenario2_not_blocked :
  fst <$> findBestMove (λ _, 0%nat) 0%nat {[0%nat := scenario2]}
  ≠ Some (Index 2).
Proof. by vm_compute. Qed.

(** C3: the symbol passed by [triggerAIMove] does not reach the search.
    Whatever is passed beyond the three declared parameters, the answer is
    the same; on X X _ / O O _ / _ _ _ asked for X the answer is 5, the
    winning cell of O, where X wins at 2, and where the engine asked for O
    on the board with the marks exchanged answers 2. *)
Theorem symbol_argument_ignored :
  (∀ rnd board delay d surplus surplus' σ,
     getMoveWithDifficultyAndDelay rnd board delay d surplus σ
     = getMoveWithDifficultyAndDelay rnd board delay d surplus' σ)
  ∧ fst <$> getMoveWithDifficultyAndDelay (λ _, 0%nat) 0%nat Main.AI_DELAY hard
              [PLAYER_X] {[0%nat := scenario2]}
    = Some (Index 5)
  ∧ checkWinner (<[2%nat := PLAYER_X]> scenario2) = Read (Some PLAYER_X)
  ∧ fst <$> getMoveWithDifficultyAndDelay (λ _, 0%nat) 0%nat Main.AI_DELAY hard
              [PLAYER_O] {[0%nat := scenario2Swapped]}
    = Some (Index 2).
Proof.
  split; [done|]. split; [by vm_compute|]. split; [done|by vm_compute].
Qed.

End Scenarios.

(** ** The opening shortcuts *)

Section Openings.

Import AI.

Lemma bestScoringb_sound (b : list cell) (i : nat) :
  b !! i = Some EMPTY → Explore.bestScoringb b i = true → bestScoring b i.
Proof.
  unfold Explore.bestScoringb, bestScoring. intros Hi Hbest σ r Hr.
  rewrite (scoreMove_run _ r i b σ Hr Hi).
  destruct (Value.scoreMove _ b i) as [si|]; [|done].
  exists si. split; [done|]. intros j Hj.
  rewrite (scoreMove_run _ r j b σ Hr Hj).
  rewrite forallb_forall in Hbest.
  specialize (Hbest j). rewrite <- list_elem_of_In, getEmptyCells_elem in Hbest.
  specialize (Hbest Hj).
  destruct (Value.scoreMove _ b j) as [sj|]; [|done]. by exists sj.
Qed.

(** C10. On the empty board [findBestMove] answers the centre or a corner,
    and on a board whose only mark is on the centre it answers a corner;
    in both cases the search loop of [findBestMove] scores no empty cell
    higher than the cell answered. *)
Theorem opening_shortcuts (rnd : nat → nat) (board : ref) (b : list cell)
    (σ : gmap nat (list cell)) :
  validRandom rnd → σ !! board = Some b →
  (b = replicate 9 EMPTY →
     ∃ i σ', findBestMove rnd board σ = Some (Index i, σ')
             ∧ i ∈ [0; 2; 4; 6; 8]%nat ∧ bestScoring b i)
  ∧ (∀ c, c ≠ EMPTY → b = <[4%nat := c]> (replicate 9 EMPTY) →
     ∃ i σ', findBestMove rnd board σ = Some (Index i, σ')
             ∧ i ∈ [0; 2; 6; 8]%nat ∧ bestScoring b i).
Proof.
  intros Hrnd Hr. rewrite (findBestMove_run rnd board b σ Hr). split.
  - intros ->.
    change (Value.findBestMove rnd (replicate 9 EMPTY))
      with (Some (pick [0; 2; 4; 6; 8]%nat (rnd 5%nat))).
    destruct (pick_valid [0; 2; 4; 6; 8]%nat (rnd 5%nat)) as (i & -> & Hin).
    { apply Hrnd. simpl. lia. }
    eexists _, _. split; [done|]. split; [done|].
    in_list Hin; (apply bestScoringb_sound; [done|by vm_compute]).
  - intros c Hc ->.
    assert (Value.findBestMove rnd (<[4%nat := c]> (replicate 9 EMPTY))
            = Some (pick [0; 2; 6; 8]%nat (rnd 4%nat))) as ->.
    { by destruct c. }
    destruct (pick_valid [0; 2; 6; 8]%nat (rnd 4%nat)) as (i & -> & Hin).
    { apply Hrnd. simpl. lia. }
    eexists _, _. split; [done|]. split; [done|].
    destruct c; [done| |];
      in_list Hin; (apply bestScoringb_sound; [done|by vm_compute]).
Qed.

Lemma opening_shortcuts_witness :
  validRandom (λ _, 0%nat)
  ∧ ({[0%nat := replicate 9 EMPTY]} : gmap nat (list cell)) !! 0%nat
    = Some (replicate 9 EMPTY)
  ∧ (replicate 9 EMPTY = replicate 9 EMPTY →
       ∃ i σ', findBestMove (λ _, 0%nat) 0%nat {[0%nat := replicate 9 EMPTY]}
               = Some (Index i, σ')
               ∧ i ∈ [0; 2; 4; 6; 8]%nat ∧ bestScoring (replicate 9 EMPTY) i)
    ∧ (∀ c, c ≠ EMPTY → replicate 9 EMPTY = <[4%nat := c]> (replicate 9 EMPTY) →
       ∃ i σ', findBestMove (λ _, 0%nat) 0%nat {[0%nat := replicate 9 EMPTY]}
               = Some (Index i, σ')
               ∧ i ∈ [0; 2; 6; 8]%nat ∧ bestScoring (replicate 9 EMPTY) i).
Proof.
  assert (Hrnd : validRandom (λ _, 0%nat)) by (intros n Hn; lia).
  split; [exact Hrnd|]. split; [reflexivity|].
  apply opening_shortcuts; [exact Hrnd|reflexivity].
Defined.

End Openings.

(** ** The Optimal strategy does not lose *)

Section Invincible.

Import Game.


(** Every outcome of [Math.random] is covered by one of the oracles. *)
Lemma findBestMove_oracle (rnd : nat → nat) (b : list cell) :
  validRandom rnd →
  ∃ k, k ∈ Explore.oracles b
       ∧ Value.findBestMove rnd b = Value.findBestMove (Explore.oracle k) b.
Proof.
  intros Hrnd. unfold Value.findBestMove, Explore.oracles.
  assert (H0 : (0%nat ∈ if decide (8 ≤ length (AI.getEmptyCells b))%nat
                        then seq 0 5 else [0%nat])).
  { destruct (decide _); repeat constructor. }
  assert (Hk : ∀ k, (k < 5)%nat → (8 ≤ length (AI.getEmptyCells b))%nat →
               k ∈ if decide (8 ≤ length (AI.getEmptyCells b))%nat
                   then seq 0 5 else [0%nat]).
  { intros k Hlt Hle. rewrite decide_True by done. apply elem_of_seq. lia. }
  destruct (decide (_ = 0%nat)); [by exists 0%nat|].
  destruct (decide (_ = 9%nat)) as [H9|].
  { pose proof (Hrnd 5%nat ltac:(lia)). exists (rnd 5%nat).
    split; [apply Hk; lia|]. simpl length. unfold Explore.oracle.
    by replace (Nat.min (rnd 5%nat) (5 - 1)) with (rnd 5%nat) by lia. }
  destruct (bool_decide (_ = 8%nat) && _) eqn:H8; [|by exists 0%nat].
  apply andb_true_iff in H8 as [H8%bool_decide_eq_true _].
  pose proof (Hrnd 4%nat ltac:(lia)). exists (rnd 4%nat).
  split; [apply Hk; lia|]. simpl length. unfold Explore.oracle.
  by replace (Nat.min (rnd 4%nat) (4 - 1)) with (rnd 4%nat) by lia.
Qed.









End Invincible.

(** ** Pruning does not change the answer *)

(** Decides statements about the order of numbers by cases: each number
    is [-Infinity], an integer or [Infinity], and integers are compared by
    [lia]. *)
Ltac number_order :=
  unfold bounds, Math_max, Math_min in *;
  repeat match goal with
         | H : _ ∧ _ |- _ => destruct H
         end;
  repeat match goal with
         | n : number |- _ => destruct n; simpl in *; try done
         end;
  repeat match goal with
         | H : context [?x <=? ?y] |- _ =>
             destruct (Z.leb_spec x y); simpl in *; try done
         | |- context [?x <=? ?y] =>
             destruct (Z.leb_spec x y); simpl in *; try done
         end;
  repeat match goal with
         | H : ?x = ?x → _ |- _ => specialize (H eq_refl)
         | H : true = false → _ |- _ => clear H
         | H : false = true → _ |- _ => clear H
         | H : Num _ = Num _ |- _ => injection H as H
         end;
  try done;
  try (repeat split; intros; first [lia | f_equal; lia | done]).

Section WindowFacts.

Lemma bounds_exact (alpha beta v : number) : bounds alpha beta v v.
Proof. number_order. Qed.

(** What a child's answer says when it does not reach [beta] ... *)
Lemma bounds_low (alpha beta r v : number) :
  bounds alpha beta r v → number_le beta r = false →
  number_le v r = true ∧ (number_le r alpha = false → r = v).
Proof. intros. number_order. Qed.

(** ... and when it does not reach down to [alpha]. *)
Lemma bounds_high (alpha beta r v : number) :
  bounds alpha beta r v → number_le r alpha = false →
  number_le r v = true ∧ (number_le beta r = false → r = v).
Proof. intros. number_order. Qed.

Lemma bounds_full (r : number) (z : Z) :
  bounds NegInfinity Infinity r (Num z) → r = Num z.
Proof. intros. number_order. Qed.

Lemma Math_max_alpha (alpha0 best r : number) :
  Math_max (Math_max alpha0 best) r = Math_max alpha0 (Math_max r best).
Proof. number_order. Qed.

Lemma Math_min_beta (beta0 best r : number) :
  Math_min (Math_min beta0 best) r = Math_min beta0 (Math_min r best).
Proof. number_order. Qed.

Lemma Math_max_NegInfinity (alpha : number) :
  alpha = Math_max alpha NegInfinity.
Proof. number_order. Qed.

Lemma Math_min_Infinity (beta : number) :
  beta = Math_min beta Infinity.
Proof. number_order. Qed.

Lemma Math_max_mono (a b c d : number) :
  number_le a b = true → number_le c d = true →
  number_le (Math_max c a) (Math_max d b) = true.
Proof. intros. number_order. Qed.

Lemma Math_min_mono (a b c d : number) :
  number_le a b = true → number_le c d = true →
  number_le (Math_min c a) (Math_min d b) = true.
Proof. intros. number_order. Qed.

Lemma Math_max_ge (a b v : number) :
  number_le (Math_max a b) v = true → number_le a v = true.
Proof. intros. number_order. Qed.

Lemma Math_min_le (a b v : number) :
  number_le v (Math_min a b) = true → number_le v a = true.
Proof. intros. number_order. Qed.

Lemma number_le_trans (a b c : number) :
  number_le a b = true → number_le b c = true → number_le a c = true.
Proof. intros. number_order. Qed.

(** The maximizing loop: the invariant over one more child. *)
Lemma maximize_step (alpha0 bestV bestF r v : number) :
  number_le bestF bestV = true →
  (number_le bestV alpha0 = false → bestF = bestV) →
  number_le v r = true →
  (number_le r (Math_max alpha0 bestV) = false → r = v) →
  number_le (Math_max r bestV) alpha0 = false →
  Math_max v bestF = Math_max r bestV.
Proof. intros. number_order. Qed.

Lemma minimize_step (beta0 bestV bestF r v : number) :
  number_le bestV bestF = true →
  (number_le beta0 bestV = false → bestF = bestV) →
  number_le r v = true →
  (number_le (Math_min beta0 bestV) r = false → r = v) →
  number_le beta0 (Math_min r bestV) = false →
  Math_min v bestF = Math_min r bestV.
Proof. intros. number_order. Qed.

(** The loop ends without a cutoff. *)
Lemma maximize_end (alpha0 beta bestV bestF : number) :
  number_le bestF bestV = true →
  (number_le bestV alpha0 = false → bestF = bestV) →
  number_le beta (Math_max alpha0 bestV) = false →
  bounds alpha0 beta bestV bestF.
Proof. intros. number_order. Qed.

Lemma minimize_end (alpha beta0 bestV bestF : number) :
  number_le bestV bestF = true →
  (number_le beta0 bestV = false → bestF = bestV) →
  number_le (Math_min beta0 bestV) alpha = false →
  bounds alpha beta0 bestV bestF.
Proof. intros. number_order. Qed.

(** The loop is cut off. *)
Lemma maximize_cut (alpha0 beta bestV r v : number) :
  number_le beta (Math_max alpha0 bestV) = false →
  number_le beta (Math_max (Math_max alpha0 bestV) r) = true →
  (number_le beta r = true → number_le r v = true) →
  bounds alpha0 beta (Math_max r bestV) v.
Proof. intros. number_order. Qed.

Lemma minimize_cut (alpha beta0 bestV r v : number) :
  number_le (Math_min beta0 bestV) alpha = false →
  number_le (Math_min (Math_min beta0 bestV) r) alpha = true →
  (number_le r alpha = true → number_le v r = true) →
  bounds alpha beta0 (Math_min r bestV) v.
Proof. intros. number_order. Qed.

Lemma maximize_open (alpha beta r : number) :
  number_le beta (Math_max alpha r) = false → number_le beta r = false.
Proof. intros. number_order. Qed.

Lemma minimize_open (alpha beta r : number) :
  number_le (Math_min beta r) alpha = false → number_le r alpha = false.
Proof. intros. number_order. Qed.

End WindowFacts.

Section Pruning.

Import AI.

(** The unpruned loops only raise (lower) the running score. *)
Lemma Full_maximize_ge (b : list cell) (child : list cell → option number)
    (cells : list nat) (bestScore v : number) :
  Full.maximize b child cells bestScore = Some v → number_le bestScore v = true.
Proof.
  revert bestScore. induction cells as [|i rest IH]; intros bestScore.
  - intros [= ->]. by destruct v; simpl; rewrite ?Z.leb_refl.
  - cbn [Full.maximize]. destruct (child _) as [score|]; [|done].
    cbn [mbind option_bind]. intros Hv%IH.
    eapply number_le_trans; [|exact Hv]. clear. number_order.
Qed.

Lemma Full_minimize_le (b : list cell) (child : list cell → option number)
    (cells : list nat) (bestScore v : number) :
  Full.minimize b child cells bestScore = Some v → number_le v bestScore = true.
Proof.
  revert bestScore. induction cells as [|i rest IH]; intros bestScore.
  - intros [= ->]. by destruct v; simpl; rewrite ?Z.leb_refl.
  - cbn [Full.minimize]. destruct (child _) as [score|]; [|done].
    cbn [mbind option_bind]. intros Hv%IH.
    eapply number_le_trans; [exact Hv|]. clear. number_order.
Qed.

Section Loops.

Context (b : list cell).
Context (childV : list cell → number → number → option number).
Context (childF : list cell → option number).

Lemma maximize_bounds (alpha0 beta : number) (cells : list nat)
    (bestV bestF v : number) :
  (∀ i a vi, i ∈ cells → number_le beta a = false →
     childF (<[i := PLAYER_O]> b) = Some vi →
     ∃ ri, childV (<[i := PLAYER_O]> b) a beta = Some ri ∧ bounds a beta ri vi) →
  number_le bestF bestV = true →
  (number_le bestV alpha0 = false → bestF = bestV) →
  number_le beta (Math_max alpha0 bestV) = false →
  Full.maximize b childF cells bestF = Some v →
  ∃ r, Value.maximize b childV beta cells bestV (Math_max alpha0 bestV) = Some r
       ∧ bounds alpha0 beta r v.
Proof.
  revert bestV bestF.
  induction cells as [|i rest IH]; intros bestV bestF Hchild Hle Hexact Hopen.
  - intros [= ->]. exists bestV. split; [done|]. by apply maximize_end.
  - cbn [Full.maximize Value.maximize].
    destruct (childF (<[i := PLAYER_O]> b)) as [vi|] eqn:Hvi; [|done].
    cbn [mbind option_bind]. intros Hv.
    destruct (Hchild i _ vi ltac:(left) Hopen Hvi) as (ri & -> & Hri).
    cbn [mbind option_bind].
    destruct (number_le beta (Math_max (Math_max alpha0 bestV) ri)) eqn:Hcut.
    + eexists. split; [done|]. apply maximize_cut; [done..|].
      intros Hhigh. destruct Hri as (_ & Hri & _).
      eapply number_le_trans; [by apply Hri|].
      eapply Math_max_ge, Full_maximize_ge, Hv.
    + pose proof (maximize_open _ _ _ Hcut) as Hlow.
      destruct (bounds_low _ _ _ _ Hri Hlow) as [Hvi_le Hvi_eq].
      rewrite Math_max_alpha in Hcut |- *.
      apply (IH _ (Math_max vi bestF)); try done.
      * intros j a vj Hj. apply Hchild. by right.
      * by apply Math_max_mono.
      * intros Hin. by apply (maximize_step alpha0).
Qed.

Lemma minimize_bounds (alpha beta0 : number) (cells : list nat)
    (bestV bestF v : number) :
  (∀ i a vi, i ∈ cells → number_le a alpha = false →
     childF (<[i := PLAYER_X]> b) = Some vi →
     ∃ ri, childV (<[i := PLAYER_X]> b) alpha a = Some ri ∧ bounds alpha a ri vi) →
  number_le bestV bestF = true →
  (number_le beta0 bestV = false → bestF = bestV) →
  number_le (Math_min beta0 bestV) alpha = false →
  Full.minimize b childF cells bestF = Some v →
  ∃ r, Value.minimize b childV alpha cells bestV (Math_min beta0 bestV) = Some r
       ∧ bounds alpha beta0 r v.
Proof.
  revert bestV bestF.
  induction cells as [|i rest IH]; intros bestV bestF Hchild Hle Hexact Hopen.
  - intros [= ->]. exists bestV. split; [done|]. by apply minimize_end.
  - cbn [Full.minimize Value.minimize].
    destruct (childF (<[i := PLAYER_X]> b)) as [vi|] eqn:Hvi; [|done].
    cbn [mbind option_bind]. intros Hv.
    destruct (Hchild i _ vi ltac:(left) Hopen Hvi) as (ri & -> & Hri).
    cbn [mbind option_bind].
    destruct (number_le (Math_min (Math_min beta0 bestV) ri) alpha) eqn:Hcut.
    + eexists. split; [done|]. apply minimize_cut; [done..|].
      intros Hlow. destruct Hri as (Hri & _ & _).
      eapply number_le_trans; [|by apply Hri].
      eapply Math_min_le, Full_minimize_le, Hv.
    + pose proof (minimize_open _ _ _ Hcut) as Hhigh.
      destruct (bounds_high _ _ _ _ Hri Hhigh) as [Hvi_le Hvi_eq].
      rewrite Math_min_beta in Hcut |- *.
      apply (IH _ (Math_min vi bestF)); try done.
      * intros j a vj Hj. apply Hchild. by right.
      * by apply Math_min_mono.
      * intros Hin. by apply (minimize_step beta0).
Qed.

End Loops.

(** The pruned search, against the unpruned one. *)
Lemma minimax_bounds (fuel : nat) (b : list cell) (depth : Z) (isMaximizing : bool)
    (alpha beta v : number) :
  number_le beta alpha = false →
  Full.minimax fuel b depth isMaximizing = Some v →
  ∃ r, Value.minimax fuel b depth isMaximizing alpha beta = Some r
       ∧ bounds alpha beta r v.
Proof.
  revert b depth isMaximizing alpha beta v.
  induction fuel as [|fuel IH]; intros b depth isMaximizing alpha beta v Hopen; [done|].
  cbn [Full.minimax Value.minimax].
  destruct (decide (_ = Read (Some PLAYER_O))).
  { intros [= <-]. eexists. split; [done|]. apply bounds_exact. }
  destruct (decide (_ = Read (Some PLAYER_X))).
  { intros [= <-]. exists (Num (depth - 10)).
    split; [unfold SCORE_LOSE; do 2 f_equal; lia|apply bounds_exact]. }
  destruct (isBoardFull b).
  { intros [= <-]. eexists. split; [done|]. apply bounds_exact. }
  destruct isMaximizing; intros Hv.
  - pose proof (maximize_bounds b (λ b', Value.minimax fuel b' (depth + 1) false)
                  (λ b', Full.minimax fuel b' (depth + 1) false)
                  alpha beta (getEmptyCells b) NegInfinity NegInfinity v) as Hloop.
    rewrite <- (Math_max_NegInfinity alpha) in Hloop.
    apply Hloop; try done. intros i a vi _ Ha Hvi. by apply IH.
  - pose proof (minimize_bounds b (λ b', Value.minimax fuel b' (depth + 1) true)
                  (λ b', Full.minimax fuel b' (depth + 1) true)
                  alpha beta (getEmptyCells b) Infinity Infinity v) as Hloop.
    rewrite <- (Math_min_Infinity beta) in Hloop.
    apply Hloop; try done. intros i a vi _ Ha Hvi. by apply IH.
Qed.

End Pruning.

Section Unpruned.

Import AI.

Section Loops.

Context (b : list cell) (child : list cell → option number).

Lemma Full_maximize_Num (cells : list nat) (z0 : Z) :
  (∀ i, i ∈ cells → ∃ z, child (<[i := PLAYER_O]> b) = Some (Num z)) →
  ∃ z, Full.maximize b child cells (Num z0) = Some (Num z).
Proof.
  revert z0. induction cells as [|i rest IH]; intros z0 Hchild; [simpl; eauto|].
  cbn [Full.maximize]. destruct (Hchild i ltac:(left)) as [s ->]. simpl.
  destruct (Math_max_Num s z0) as [z' ->].
  apply IH. intros j Hj. apply Hchild. by right.
Qed.

Lemma Full_maximize_total (cells : list nat) :
  cells ≠ [] →
  (∀ i, i ∈ cells → ∃ z, child (<[i := PLAYER_O]> b) = Some (Num z)) →
  ∃ z, Full.maximize b child cells NegInfinity = Some (Num z).
Proof.
  destruct cells as [|i rest]; [done|]. intros _ Hchild.
  cbn [Full.maximize]. destruct (Hchild i ltac:(left)) as [s ->]. simpl.
  change (Math_max (Num s) NegInfinity) with (Num s).
  apply Full_maximize_Num. intros j Hj. apply Hchild. by right.
Qed.

Lemma Full_minimize_Num (cells : list nat) (z0 : Z) :
  (∀ i, i ∈ cells → ∃ z, child (<[i := PLAYER_X]> b) = Some (Num z)) →
  ∃ z, Full.minimize b child cells (Num z0) = Some (Num z).
Proof.
  revert z0. induction cells as [|i rest IH]; intros z0 Hchild; [simpl; eauto|].
  cbn [Full.minimize]. destruct (Hchild i ltac:(left)) as [s ->]. simpl.
  destruct (Math_min_Num s z0) as [z' ->].
  apply IH. intros j Hj. apply Hchild. by right.
Qed.

Lemma Full_minimize_total (cells : list nat) :
  cells ≠ [] →
  (∀ i, i ∈ cells → ∃ z, child (<[i := PLAYER_X]> b) = Some (Num z)) →
  ∃ z, Full.minimize b child cells Infinity = Some (Num z).
Proof.
  destruct cells as [|i rest]; [done|]. intros _ Hchild.
  cbn [Full.minimize]. destruct (Hchild i ltac:(left)) as [s ->]. simpl.
  change (Math_min (Num s) Infinity) with (Num s).
  apply Full_minimize_Num. intros j Hj. apply Hchild. by right.
Qed.

End Loops.

(** The unpruned search terminates too, with an integer. *)
Lemma Full_minimax_total (fuel : nat) (b : list cell) (depth : Z)
    (isMaximizing : bool) :
  (length (getEmptyCells b) < fuel)%nat →
  ∃ z, Full.minimax fuel b depth isMaximizing = Some (Num z).
Proof.
  revert b depth isMaximizing.
  induction fuel as [|fuel IH]; intros b depth isMaximizing Hfuel; [lia|].
  cbn [Full.minimax].
  repeat (case_decide; [eauto|]).
  destruct (isBoardFull b) eqn:Hfull; [eauto|].
  assert (Hne : getEmptyCells b ≠ []).
  { intros Heq. apply isBoardFull_getEmptyCells in Heq. congruence. }
  assert (Hless : ∀ i m, i ∈ getEmptyCells b → m ≠ EMPTY →
                         (length (getEmptyCells (<[i := m]> b)) < fuel)%nat).
  { intros i m Hi Hm. apply getEmptyCells_elem in Hi.
    pose proof (getEmptyCells_insert b i m Hi Hm). lia. }
  destruct isMaximizing.
  - apply Full_maximize_total; [done|]. intros i Hi. by apply IH, Hless.
  - apply Full_minimize_total; [done|]. intros i Hi. by apply IH, Hless.
Qed.

(** From the root the window is open on both sides: the score of a move
    is the exact one. *)
Lemma scoreMove_unpruned (b : list cell) (index : nat) :
  b !! index = Some EMPTY →
  ∃ z, Value.scoreMove (fuelFor (getEmptyCells b)) b index = Some (Num z)
       ∧ Full.scoreMove (fuelFor (getEmptyCells b)) b index = Some (Num z).
Proof.
  intros Hi. unfold Value.scoreMove, Full.scoreMove.
  destruct (Full_minimax_total (fuelFor (getEmptyCells b))
              (<[index := PLAYER_O]> b) 0 false) as [z Hz].
  { unfold fuelFor.
    pose proof (getEmptyCells_insert b index PLAYER_O Hi ltac:(done)). lia. }
  destruct (minimax_bounds _ _ _ _ NegInfinity Infinity _ eq_refl Hz)
    as (r & Hr & Hbounds).
  apply bounds_full in Hbounds as ->. eauto.
Qed.

Lemma searchMoves_unpruned (b : list cell) (cells : list nat)
    (bestScore : number) (bestMove : move) :
  (∀ i, i ∈ cells → b !! i = Some EMPTY) →
  ∃ m, Value.searchMoves (fuelFor (getEmptyCells b)) b cells bestScore bestMove
       = Some m
       ∧ Full.searchMoves (fuelFor (getEmptyCells b)) b cells bestScore bestMove
         = Some m.
Proof.
  revert bestScore bestMove.
  induction cells as [|i rest IH]; intros bestScore bestMove Hcells; [simpl; eauto|].
  cbn [Value.searchMoves Full.searchMoves].
  destruct (scoreMove_unpruned b i) as (z & -> & ->); [apply Hcells; left|].
  cbn [mbind option_bind].
  destruct (number_gt (Num z) bestScore); apply IH; intros j Hj; apply Hcells;
    by right.
Qed.

Lemma findBestMove_unpruned (rnd : nat → nat) (b : list cell) :
  ∃ m, Value.findBestMove rnd b = Some m ∧ Full.findBestMove rnd b = Some m.
Proof.
  unfold Value.findBestMove, Full.findBestMove.
  destruct (decide (_ = 0%nat)); [eauto|]. destruct (decide (_ = 9%nat)); [eauto|].
  destruct (_ && _); [eauto|].
  apply searchMoves_unpruned. intros i. apply getEmptyCells_elem.
Qed.

(** C6. For every board, the move [findBestMove] answers with the pruned
    [minimax] is the move the same loop answers with the search that takes
    no bounds and visits every empty cell; so is, on any board, the answer
    of the loop over the moves itself, and each move is given the same
    score by both. *)
Theorem pruning_keeps_move (rnd : nat → nat) (board : ref) (b : list cell)
    (σ : gmap nat (list cell)) :
  σ !! board = Some b →
  (∃ m σ', findBestMove rnd board σ = Some (m, σ')
           ∧ Full.findBestMove rnd b = Some m)
  ∧ (∃ m, searchMoves (fuelFor (getEmptyCells b)) board (getEmptyCells b)
            NegInfinity NoMove σ = Some (m, σ)
          ∧ Full.searchMoves (fuelFor (getEmptyCells b)) b (getEmptyCells b)
              NegInfinity NoMove = Some m)
  ∧ (∀ index, b !! index = Some EMPTY →
       ∃ z, scoreMove (fuelFor (getEmptyCells b)) board index σ = Some (Num z, σ)
            ∧ Full.scoreMove (fuelFor (getEmptyCells b)) b index = Some (Num z)).
Proof.
  intros Hr. split; [|split].
  - rewrite (findBestMove_run rnd board b σ Hr).
    destruct (findBestMove_unpruned rnd b) as (m & -> & ->). simpl. eauto.
  - rewrite (searchMoves_run _ board _ _ _ b σ Hr)
      by (intros i; apply getEmptyCells_elem).
    destruct (searchMoves_unpruned b (getEmptyCells b) NegInfinity NoMove)
      as (m & -> & ->); [intros i; apply getEmptyCells_elem|].
    simpl. eauto.
  - intros index Hi. rewrite (scoreMove_run _ board index b σ Hr Hi).
    destruct (scoreMove_unpruned b index Hi) as (z & -> & ->). simpl. eauto.
Qed.

Lemma pruning_keeps_move_witness :
  ({[0%nat := scenario2]} : gmap nat (list cell)) !! 0%nat = Some scenario2
  ∧ (∃ m σ', findBestMove (λ _, 0%nat) 0%nat {[0%nat := scenario2]} = Some (m, σ')
             ∧ Full.findBestMove (λ _, 0%nat) scenario2 = Some m)
    ∧ (∃ m, searchMoves (fuelFor (getEmptyCells scenario2)) 0%nat
              (getEmptyCells scenario2) NegInfinity NoMove {[0%nat := scenario2]}
            = Some (m, {[0%nat := scenario2]})
            ∧ Full.searchMoves (fuelFor (getEmptyCells scenario2)) scenario2
                (getEmptyCells scenario2) NegInfinity NoMove = Some m)
    ∧ (∀ index, scenario2 !! index = Some EMPTY →
         ∃ z, scoreMove (fuelFor (getEmptyCells scenario2)) 0%nat index
                {[0%nat := scenario2]}
              = Some (Num z, {[0%nat := scenario2]})
              ∧ Full.scoreMove (fuelFor (getEmptyCells scenario2)) scenario2 index
                = Some (Num z)).
Proof.
  split; [reflexivity|].
  apply (pruning_keeps_move (λ _, 0%nat) 0%nat scenario2). reflexivity.
Defined.

End Unpruned.

(** * Further properties of the state machine *)

Section GameStates.

Import Game.

(** What a successful [makeMove] does to every field, by the verdict of
    [checkGameEnd] on the new board. *)
Lemma makeMove_fields (s : state) (index : Z) :
  isValidMove s index = true →
  board (makeMove s index).1.2 = <[Z.to_nat index := currentPlayer s]> (board s)
  ∧ playerSymbol (makeMove s index).1.2 = playerSymbol s
  ∧ aiSymbol (makeMove s index).1.2 = aiSymbol s
  ∧ (ended (checkGameEnd (board (makeMove s index).1.2)) = true →
       gameOver (makeMove s index).1.2 = true
       ∧ winner (makeMove s index).1.2
         = resultWinner (checkGameEnd (board (makeMove s index).1.2))
       ∧ winningLine (makeMove s index).1.2
         = resultWinningLine (checkGameEnd (board (makeMove s index).1.2))
       ∧ currentPlayer (makeMove s index).1.2 = currentPlayer s
       ∧ (makeMove s index).2
         = [StateChange (makeMove s index).1.2; GameEnd (makeMove s index).1.2])
  ∧ (ended (checkGameEnd (board (makeMove s index).1.2)) = false →
       gameOver (makeMove s index).1.2 = gameOver s
       ∧ winner (makeMove s index).1.2 = winner s
       ∧ winningLine (makeMove s index).1.2 = winningLine s
       ∧ currentPlayer (makeMove s index).1.2 = otherPlayer (currentPlayer s)
       ∧ (makeMove s index).2 = [StateChange (makeMove s index).1.2]).
Proof.
  intros Hvalid. unfold makeMove. rewrite Hvalid. simpl.
  destruct (ended (checkGameEnd (<[Z.to_nat index:=currentPlayer s]> (board s))))
    eqn:Hended; simpl; rewrite Hended; by repeat split.
Qed.

Lemma checkGameEnd_continues (b : list cell) :
  ended (checkGameEnd b) = false →
  checkGameEnd b = Result false Null None
  ∧ scanCombos b WINNING_COMBINATIONS = None
  ∧ everyNonEmpty b = false.
Proof.
  unfold checkGameEnd.
  destruct (scanCombos b WINNING_COMBINATIONS) as [r|] eqn:Hscan.
  - assert (Hr : ended r = true); [|by rewrite Hr].
    clear -Hscan. revert Hscan. generalize WINNING_COMBINATIONS.
    intros combos. induction combos as [|[[a1 a2] a3] rest IH]; [done|].
    cbn [scanCombos]. destruct (lineComplete _ _); [by intros [= <-]|done].
  - by destruct (everyNonEmpty b).
Qed.

Lemma consistent_init (p : cell) : consistent (init p).1.
Proof.
  unfold consistent. destruct p; simpl; repeat split; auto.
Qed.

Lemma consistent_makeMove (s : state) (index : Z) :
  consistent s → consistent (makeMove s index).1.2.
Proof.
  intros Hs. destruct (isValidMove s index) eqn:Hvalid;
    [|by rewrite (makeMove_invalid s index Hvalid)].
  destruct Hs as (Hlen & Hsym & Hcur & Hover & Hwin & Hline).
  destruct (makeMove_fields s index Hvalid) as (Hb & Hp & Ha & Hend & Hgo).
  apply isValidMove_spec in Hvalid as (Hnot & _ & _).
  unfold consistent. rewrite Hp, Ha.
  split; [by rewrite Hb, length_insert|]. split; [done|].
  destruct (ended (checkGameEnd (board (makeMove s index).1.2))) eqn:Hended.
  - destruct (Hend eq_refl) as (-> & -> & -> & -> & _). by repeat split.
  - destruct (Hgo eq_refl) as (-> & -> & -> & -> & _).
    rewrite Hnot in Hover. symmetry in Hover.
    apply checkGameEnd_continues in Hover as (Hold & _).
    apply checkGameEnd_continues in Hended as (Hnew & _).
    rewrite Hold in Hwin, Hline. rewrite Hnew, Hnot, Hwin, Hline. simpl.
    repeat split. unfold otherPlayer. destruct (decide _); auto.
Qed.

Lemma reachable_consistent (s : state) : Game.reachable s → consistent s.
Proof.
  induction 1; [apply consistent_init|by apply consistent_makeMove].
Qed.

Lemma reachable_makeMoves (indices : list Z) (s : state) :
  Game.reachable s → Game.reachable (makeMoves s indices).1.
Proof.
  revert s. induction indices as [|index rest IH]; intros s Hs; [done|].
  simpl. pose proof (Game.reachable_makeMove s index Hs) as Hs'.
  destruct (makeMove s index) as [[ok s'] ev]. simpl in *.
  specialize (IH s' Hs'). by destruct (makeMoves s' rest).
Qed.

(** X2. In every state of the module the board has nine cells, the
    participants hold X and O, one each, and the game-over flag, the
    winner and the winning line are the verdict of [checkGameEnd] on the
    board. *)
Theorem reachable_state_consistent (s : state) :
  Game.reachable s →
  length (board s) = 9%nat
  ∧ (playerSymbol s = PLAYER_X ∧ aiSymbol s = PLAYER_O
     ∨ playerSymbol s = PLAYER_O ∧ aiSymbol s = PLAYER_X)
  ∧ checkGameEnd (board s) = Result (gameOver s) (winner s) (winningLine s).
Proof.
  intros (Hlen & Hsym & _ & Hover & Hwin & Hline)%reachable_consistent.
  split; [done|]. split; [done|].
  rewrite Hover, Hwin, Hline. by destruct (checkGameEnd (board s)).
Qed.

Lemma reachable_state_consistent_witness :
  Game.reachable (makeMove (init PLAYER_X).1 4).1.2
  ∧ length (board (makeMove (init PLAYER_X).1 4).1.2) = 9%nat
    ∧ (playerSymbol (makeMove (init PLAYER_X).1 4).1.2 = PLAYER_X
       ∧ aiSymbol (makeMove (init PLAYER_X).1 4).1.2 = PLAYER_O
       ∨ playerSymbol (makeMove (init PLAYER_X).1 4).1.2 = PLAYER_O
         ∧ aiSymbol (makeMove (init PLAYER_X).1 4).1.2 = PLAYER_X)
    ∧ checkGameEnd (board (makeMove (init PLAYER_X).1 4).1.2)
      = Result (gameOver (makeMove (init PLAYER_X).1 4).1.2)
               (winner (makeMove (init PLAYER_X).1 4).1.2)
               (winningLine (makeMove (init PLAYER_X).1 4).1.2).
Proof.
  assert (Hreach : Game.reachable (makeMove (init PLAYER_X).1 4).1.2).
  { apply Game.reachable_makeMove, Game.reachable_init. }
  split; [exact Hreach|]. exact (reachable_state_consistent _ Hreach).
Defined.

(** X1. A finished game is frozen: whatever calls follow, each fails, the
    state stays the same, no mark is placed and nothing is notified. *)
Theorem finished_game_frozen (s : state) (indices : list Z) :
  gameOver s = true →
  makeMoves s indices = (s, [])
  ∧ Game.makeMovesEvents s indices = []
  ∧ ∀ index, makeMove s index = (false, s, []).
Proof.
  intros Hover.
  assert (Hfail : ∀ index, makeMove s index = (false, s, [])).
  { intros index. apply makeMove_invalid. unfold isValidMove. by rewrite Hover. }
  split; [|split; [|done]].
  - induction indices as [|index rest IH]; [done|].
    simpl. by rewrite Hfail, IH.
  - induction indices as [|index rest IH]; [done|].
    simpl. by rewrite Hfail.
Qed.

Lemma finished_game_frozen_witness :
  gameOver (makeMoves (init PLAYER_X).1 [0; 3; 1; 4; 2]).1 = true
  ∧ makeMoves (makeMoves (init PLAYER_X).1 [0; 3; 1; 4; 2]).1 [5; 6]
    = ((makeMoves (init PLAYER_X).1 [0; 3; 1; 4; 2]).1, [])
    ∧ Game.makeMovesEvents (makeMoves (init PLAYER_X).1 [0; 3; 1; 4; 2]).1 [5; 6]
      = []
    ∧ ∀ index, makeMove (makeMoves (init PLAYER_X).1 [0; 3; 1; 4; 2]).1 index
               = (false, (makeMoves (init PLAYER_X).1 [0; 3; 1; 4; 2]).1, []).
Proof.
  split; [reflexivity|]. apply finished_game_frozen. reflexivity.
Defined.

(** X3. While a game is on it is the turn of exactly one of the human and
    the computer; once it is over it is the turn of neither. *)
Theorem turn_of_exactly_one (s : state) :
  Game.reachable s →
  (gameOver s = false → isPlayerTurn s = negb (isAITurn s))
  ∧ (gameOver s = true → isPlayerTurn s = false ∧ isAITurn s = false).
Proof.
  intros (_ & Hsym & Hcur & _)%reachable_consistent.
  unfold isPlayerTurn, isAITurn. split; intros ->; simpl.
  - rewrite !andb_true_r.
    destruct Hsym as [[-> ->] | [-> ->]], Hcur as [-> | ->]; done.
  - by rewrite !andb_false_r.
Qed.

Lemma turn_of_exactly_one_witness :
  Game.reachable (init PLAYER_O).1
  ∧ (gameOver (init PLAYER_O).1 = false →
       isPlayerTurn (init PLAYER_O).1 = negb (isAITurn (init PLAYER_O).1))
    ∧ (gameOver (init PLAYER_O).1 = true →
         isPlayerTurn (init PLAYER_O).1 = false ∧ isAITurn (init PLAYER_O).1 = false).
Proof.
  split; [apply Game.reachable_init|].
  apply turn_of_exactly_one, Game.reachable_init.
Defined.

End GameStates.

Section GameOutcome.

Import Game.

Lemma scanCombos_ended (b : list cell) (combos : list combo) (r : result) :
  scanCombos b combos = Some r → ended r = true.
Proof.
  induction combos as [|[[a1 a2] a3] rest IH]; [done|].
  cbn [scanCombos]. destruct (lineComplete _ _); [by intros [= <-]|done].
Qed.

Lemma checkGameEnd_full (b : list cell) :
  everyNonEmpty b = true → ended (checkGameEnd b) = true.
Proof.
  intros Hfull. unfold checkGameEnd.
  destruct (scanCombos b WINNING_COMBINATIONS) as [r|] eqn:Hscan.
  - by eapply scanCombos_ended.
  - by rewrite Hfull.
Qed.

(** The verdict of [checkGameEnd] on a board of nine cells, by cases. *)
Lemma checkGameEnd_cases (b : list cell) :
  length b = 9%nat →
  (∃ t m, checkGameEnd b = Result true (Mark (Some m)) (Some t)
          ∧ t ∈ WINNING_COMBINATIONS ∧ filled b t m)
  ∨ (checkGameEnd b = Result true Draw None
     ∧ noneFilled b ∧ everyNonEmpty b = true)
  ∨ (checkGameEnd b = Result false Null None
     ∧ noneFilled b ∧ everyNonEmpty b = false).
Proof.
  intros Hlen. pose proof (combos_in_range b Hlen) as Hrange.
  unfold checkGameEnd.
  destruct (scanCombos b WINNING_COMBINATIONS) as [r|] eqn:Hscan.
  - left. apply scanCombos_Some in Hscan
      as (before & t & after & m & Heq & Hfilled & _ & ->); [|done].
    exists t, m. split; [done|]. split; [|done].
    rewrite Heq. apply elem_of_app. right. left.
  - right. rewrite (scanCombos_None b _ Hrange) in Hscan.
    destruct (everyNonEmpty b); [left|right]; done.
Qed.

(** A line that a move fills holds the mark of the move. *)
Lemma filled_insert (b : list cell) (i : nat) (p m : cell) (t : combo) :
  (i < length b)%nat →
  filled (<[i := p]> b) t m → ¬ filled b t m → m = p.
Proof.
  destruct t as [[a1 a2] a3]. unfold filled. simpl.
  intros Hi (Hm & H1 & H2 & H3) Hnot.
  destruct (decide (a1 = i)) as [->|N1].
  { rewrite list_lookup_insert_eq in H1 by done. congruence. }
  destruct (decide (a2 = i)) as [->|N2].
  { rewrite list_lookup_insert_eq in H2 by done. congruence. }
  destruct (decide (a3 = i)) as [->|N3].
  { rewrite list_lookup_insert_eq in H3 by done. congruence. }
  rewrite list_lookup_insert_ne in H1, H2, H3 by done.
  by destruct Hnot.
Qed.

Lemma reachable_wonByLastMove (s : state) :
  Game.reachable s → wonByLastMove s.
Proof.
  induction 1 as [p|s index Hreach IH].
  { intros v Hv. by destruct p. }
  destruct (isValidMove s index) eqn:Hvalid;
    [|by rewrite (makeMove_invalid s index Hvalid)].
  pose proof (reachable_consistent s Hreach)
    as (Hlen & _ & _ & Hover & Hwin & _).
  destruct (makeMove_fields s index Hvalid) as (Hb & _ & _ & Hend & Hgo).
  apply isValidMove_spec in Hvalid as (Hnot & _ & Hcell).
  rewrite Hnot in Hover. symmetry in Hover.
  apply checkGameEnd_continues in Hover as (Hold & Hscan & _).
  rewrite (scanCombos_None _ _ (combos_in_range _ Hlen)) in Hscan.
  intros v Hv.
  destruct (ended (checkGameEnd (board (makeMove s index).1.2))) eqn:Hended.
  - destruct (Hend eq_refl) as (_ & Hw & Hl & Hc & _).
    rewrite Hc, Hl. rewrite Hw in Hv.
    destruct (checkGameEnd_cases (board (makeMove s index).1.2))
      as [(t & m & Hr & Hin & Hfilled)|[(Hr & _)|(Hr & _)]];
      [by rewrite Hb, length_insert|..]; rewrite Hr in Hv |- *; simpl in *;
      [|done..].
    injection Hv as <-.
    assert (m = currentPlayer s) as ->.
    { rewrite Hb in Hfilled. eapply filled_insert; [|exact Hfilled|by apply Hscan].
      by eapply lookup_lt_Some. }
    split; [done|]. by exists t.
  - destruct (Hgo eq_refl) as (_ & Hw & _).
    rewrite Hw, Hwin, Hold in Hv. done.
Qed.

(** X4. A game that is won was won by the move just made: the winner is
    the player whose turn it was last (the turn is not passed on at the
    end), and the winning line is one of the eight triples, filled with
    that player's mark.  A drawn game has no empty cell and no filled
    triple.  The winner is [null] exactly while the game is on. *)
Theorem winner_made_last_move (s : state) :
  Game.reachable s →
  (∀ v, winner s = Mark v →
     v = Some (currentPlayer s)
     ∧ ∃ t, winningLine s = Some t ∧ t ∈ WINNING_COMBINATIONS
            ∧ filled (board s) t (currentPlayer s))
  ∧ (winner s = Draw →
       winningLine s = None ∧ noneFilled (board s)
       ∧ ∀ c, c ∈ board s → c ≠ EMPTY)
  ∧ (winner s = Null ↔ gameOver s = false).
Proof.
  intros Hreach. split; [exact (reachable_wonByLastMove s Hreach)|].
  pose proof (reachable_consistent s Hreach) as (Hlen & _ & _ & Hover & Hwin & Hline).
  rewrite Hover, Hwin, Hline.
  destruct (checkGameEnd_cases (board s) Hlen)
    as [(t & m & -> & _)|[(-> & Hnone & Hfull)|(-> & _)]]; simpl;
    (split; [|done]); try done.
  intros _. split; [done|]. split; [done|]. by apply everyNonEmpty_true.
Qed.

Lemma winner_made_last_move_witness :
  Game.reachable (makeMoves (init PLAYER_X).1 [0; 3; 1; 4; 2]).1
  ∧ (∀ v, winner (makeMoves (init PLAYER_X).1 [0; 3; 1; 4; 2]).1 = Mark v →
       v = Some (currentPlayer (makeMoves (init PLAYER_X).1 [0; 3; 1; 4; 2]).1)
       ∧ ∃ t, winningLine (makeMoves (init PLAYER_X).1 [0; 3; 1; 4; 2]).1 = Some t
              ∧ t ∈ WINNING_COMBINATIONS
              ∧ filled (board (makeMoves (init PLAYER_X).1 [0; 3; 1; 4; 2]).1) t
                  (currentPlayer (makeMoves (init PLAYER_X).1 [0; 3; 1; 4; 2]).1))
    ∧ (winner (makeMoves (init PLAYER_X).1 [0; 3; 1; 4; 2]).1 = Draw →
         winningLine (makeMoves (init PLAYER_X).1 [0; 3; 1; 4; 2]).1 = None
         ∧ noneFilled (board (makeMoves (init PLAYER_X).1 [0; 3; 1; 4; 2]).1)
         ∧ ∀ c, c ∈ board (makeMoves (init PLAYER_X).1 [0; 3; 1; 4; 2]).1 →
                c ≠ EMPTY)
    ∧ (winner (makeMoves (init PLAYER_X).1 [0; 3; 1; 4; 2]).1 = Null
       ↔ gameOver (makeMoves (init PLAYER_X).1 [0; 3; 1; 4; 2]).1 = false).
Proof.
  assert (Hreach : Game.reachable (makeMoves (init PLAYER_X).1 [0; 3; 1; 4; 2]).1).
  { apply reachable_makeMoves, Game.reachable_init. }
  split; [exact Hreach|]. exact (winner_made_last_move _ Hreach).
Defined.

End GameOutcome.

Section GameLength.

Import Game.

Lemma countMark_total (b : list cell) :
  (countMark EMPTY b + countMark PLAYER_X b + countMark PLAYER_O b)%nat = length b.
Proof.
  unfold countMark. induction b as [|c b IH]; [done|].
  rewrite !filter_cons. destruct c; simpl; lia.
Qed.

Lemma countMark_EMPTY_0 (b : list cell) :
  countMark EMPTY b = 0%nat → everyNonEmpty b = true.
Proof.
  unfold countMark. intros Hnone. apply everyNonEmpty_true. intros c Hc ->.
  assert (Hin : EMPTY ∈ filter (λ c, c = EMPTY) b) by by apply list_elem_of_filter.
  destruct (filter _ b); [by apply not_elem_of_nil in Hin|done].
Qed.

(** The marks placed by a sequence of calls are as many as the board
    gained. *)
Lemma makeMoves_count (indices : list Z) (s : state) :
  balanced s →
  (length (makeMoves s indices).2
   + (countMark PLAYER_X (board s) + countMark PLAYER_O (board s))
   = countMark PLAYER_X (board (makeMoves s indices).1)
     + countMark PLAYER_O (board (makeMoves s indices).1))%nat.
Proof.
  revert s. induction indices as [|index rest IH]; intros s Hs; [done|].
  simpl. destruct (balanced_makeMove s index Hs) as [Hs' Hplaced].
  destruct (makeMove s index) as [[ok s'] ev] eqn:Hmove. simpl in *.
  specialize (IH s' Hs'). destruct (makeMoves s' rest) as [final marks].
  simpl in *. destruct ok.
  - destruct (Hplaced eq_refl) as [_ Hn]. simpl. lia.
  - assert (s' = s) as ->; [|done].
    destruct (isValidMove s index) eqn:Hv.
    + destruct (makeMove_valid s index Hv) as (? & ? & Heq & _). congruence.
    + rewrite (makeMove_invalid s index Hv) in Hmove. congruence.
Qed.

(** X5. A game takes at most nine moves.  Whatever calls are made on a
    fresh session, those that succeed are as many as there are marks on
    the board, at most nine, and when the ninth mark is placed the game is
    over. *)
Theorem game_ends_within_nine (playerSymbol : cell) (indices : list Z) :
  (length (makeMoves (init playerSymbol).1 indices).2
   = countMark PLAYER_X (board (makeMoves (init playerSymbol).1 indices).1)
     + countMark PLAYER_O (board (makeMoves (init playerSymbol).1 indices).1))%nat
  ∧ (length (makeMoves (init playerSymbol).1 indices).2 ≤ 9)%nat
  ∧ (length (makeMoves (init playerSymbol).1 indices).2 = 9%nat →
       gameOver (makeMoves (init playerSymbol).1 indices).1 = true).
Proof.
  pose proof (makeMoves_count indices _ (balanced_init playerSymbol)) as Hcount.
  pose proof (reachable_consistent _
                (reachable_makeMoves indices _ (Game.reachable_init playerSymbol)))
    as (Hlen & _ & _ & Hover & _).
  pose proof (countMark_total (board (makeMoves (init playerSymbol).1 indices).1))
    as Htotal.
  change (countMark PLAYER_X (board (init playerSymbol).1)) with 0%nat in Hcount.
  change (countMark PLAYER_O (board (init playerSymbol).1)) with 0%nat in Hcount.
  split; [lia|]. split; [lia|]. intros Hnine.
  rewrite Hover. apply checkGameEnd_full, countMark_EMPTY_0. lia.
Qed.

End GameLength.

Section AvailableMoves.

Import Game.

Lemma availableFrom_emptyCellsFrom (i : nat) (cells : list cell) :
  Game.availableFrom i cells = AI.emptyCellsFrom i cells.
Proof.
  revert i. induction cells as [|c rest IH]; intros i; [done|].
  simpl. by rewrite IH.
Qed.

Lemma getAvailableMoves_elem (s : state) (i : nat) :
  i ∈ Game.getAvailableMoves s ↔ board s !! i = Some EMPTY.
Proof.
  unfold Game.getAvailableMoves. rewrite availableFrom_emptyCellsFrom.
  apply getEmptyCells_elem.
Qed.

(** X6. [getAvailableMoves] lists the legal moves of a game that is on:
    an index is accepted by [isValidMove] exactly when the game is not
    over and the index is in the list; and while the game is on the list
    is not empty. *)
Theorem available_moves_are_valid (s : state) :
  Game.reachable s →
  (∀ i : nat, isValidMove s (Z.of_nat i) = true
              ↔ gameOver s = false ∧ i ∈ Game.getAvailableMoves s)
  ∧ (gameOver s = false → Game.getAvailableMoves s ≠ []).
Proof.
  intros (Hlen & _ & _ & Hover & _)%reachable_consistent. split.
  - intros i. rewrite isValidMove_spec, getAvailableMoves_elem, Nat2Z.id.
    split; [tauto|]. intros [Hgo Hcell]. split; [done|]. split; [|done].
    apply lookup_lt_Some in Hcell. lia.
  - intros Hgo. rewrite Hgo in Hover. symmetry in Hover.
    apply checkGameEnd_continues in Hover as (_ & _ & Hfull).
    unfold Game.getAvailableMoves. rewrite availableFrom_emptyCellsFrom.
    intros Hnil. apply isBoardFull_getEmptyCells in Hnil.
    unfold AI.isBoardFull in Hnil. congruence.
Qed.

Lemma available_moves_are_valid_witness :
  Game.reachable (makeMove (init PLAYER_X).1 4).1.2
  ∧ (∀ i : nat, isValidMove (makeMove (init PLAYER_X).1 4).1.2 (Z.of_nat i) = true
                ↔ gameOver (makeMove (init PLAYER_X).1 4).1.2 = false
                  ∧ i ∈ Game.getAvailableMoves (makeMove (init PLAYER_X).1 4).1.2)
    ∧ (gameOver (makeMove (init PLAYER_X).1 4).1.2 = false →
         Game.getAvailableMoves (makeMove (init PLAYER_X).1 4).1.2 ≠ []).
Proof.
  assert (Hreach : Game.reachable (makeMove (init PLAYER_X).1 4).1.2).
  { apply Game.reachable_makeMove, Game.reachable_init. }
  split; [exact Hreach|]. exact (available_moves_are_valid _ Hreach).
Defined.

End AvailableMoves.

Section Notifications.

Import Game.

Lemma frozen_events (s : state) (indices : list Z) :
  gameOver s = true →
  Game.makeMovesEvents s indices = [] ∧ (makeMoves s indices).1 = s.
Proof.
  intros Hover.
  assert (Hfail : ∀ index, makeMove s index = (false, s, [])).
  { intros index. apply makeMove_invalid. unfold isValidMove. by rewrite Hover. }
  induction indices as [|index rest [IH1 IH2]]; [done|].
  simpl. rewrite Hfail. simpl. split; [done|].
  by destruct (makeMoves s rest).
Qed.

Lemma makeMoves_cons_state (s : state) (index : Z) (rest : list Z) :
  (makeMoves s (index :: rest)).1 = (makeMoves (makeMove s index).1.2 rest).1.
Proof.
  simpl. destruct (makeMove s index) as [[ok s'] ev]. simpl.
  by destruct (makeMoves s' rest).
Qed.

Lemma events_of_game (indices : list Z) (s : state) :
  gameOver s = false →
  endsOnce (Game.makeMovesEvents s indices)
  ∧ (∀ snapshot, GameEnd snapshot ∈ Game.makeMovesEvents s indices →
       snapshot = (makeMoves s indices).1)
  ∧ (gameOver (makeMoves s indices).1 = true →
       GameEnd (makeMoves s indices).1 ∈ Game.makeMovesEvents s indices)
  ∧ (∀ snapshot, GameEnd snapshot ∈ Game.makeMovesEvents s indices →
       gameOver snapshot = true).
Proof.
  revert s. induction indices as [|index rest IH]; intros s Hgo.
  { simpl. split; [by intros k sn Hk|]. split; [by intros sn Hin%not_elem_of_nil|].
    split; [congruence|by intros sn Hin%not_elem_of_nil]. }
  rewrite makeMoves_cons_state. cbn [Game.makeMovesEvents].
  destruct (isValidMove s index) eqn:Hvalid.
  - destruct (makeMove_fields s index Hvalid) as (_ & _ & _ & Hend & Hcont).
    destruct (ended (checkGameEnd (board (makeMove s index).1.2))) eqn:Hended.
    + destruct (Hend eq_refl) as (Hover & _ & _ & _ & ->).
      destruct (frozen_events _ rest Hover) as [-> ->]. simpl.
      split; [|split; [|split]].
      * intros k sn Hk. destruct k as [|[|k]]; simplify_eq/=; done.
      * intros sn [Heq|Hin]%elem_of_cons; [done|].
        apply elem_of_cons in Hin as [Heq|Hin]; [by injection Heq|].
        by apply not_elem_of_nil in Hin.
      * intros _. right. left.
      * intros sn [Heq|Hin]%elem_of_cons; [done|].
        apply elem_of_cons in Hin as [Heq|Hin]; [by injection Heq as ->|].
        by apply not_elem_of_nil in Hin.
    + destruct (Hcont eq_refl) as (Hover & _ & _ & _ & ->).
      rewrite Hgo in Hover. destruct (IH _ Hover) as (Honce & Hlast & Hsent & Hfin).
      simpl. split; [|split; [|split]].
      * intros k sn Hk. destruct k as [|k]; [done|]. simpl in *.
        f_equal. by eapply Honce.
      * intros sn [Heq|Hin]%elem_of_cons; [done|by apply Hlast].
      * intros Hfinal. right. by apply Hsent.
      * intros sn [Heq|Hin]%elem_of_cons; [done|by apply Hfin].
  - rewrite (makeMove_invalid s index Hvalid). simpl. by apply IH.
Qed.

(** X7. The game-end notification is sent once per game: among the
    notifications of any sequence of calls on a fresh session, [GameEnd]
    occurs at most once and is then the last one, it is sent exactly when
    the sequence finishes the game, and the snapshot it carries is the
    final state, with the game-over flag set. *)
Theorem game_end_notified_once (playerSymbol : cell) (indices : list Z) :
  endsOnce (Game.makeMovesEvents (init playerSymbol).1 indices)
  ∧ (∀ snapshot,
       GameEnd snapshot ∈ Game.makeMovesEvents (init playerSymbol).1 indices →
       snapshot = (makeMoves (init playerSymbol).1 indices).1
       ∧ gameOver snapshot = true)
  ∧ (gameOver (makeMoves (init playerSymbol).1 indices).1 = true →
       GameEnd (makeMoves (init playerSymbol).1 indices).1
       ∈ Game.makeMovesEvents (init playerSymbol).1 indices).
Proof.
  destruct (events_of_game indices (init playerSymbol).1 eq_refl)
    as (Honce & Hlast & Hsent & Hfin).
  split; [done|]. split; [|done]. intros sn Hin. split; auto.
Qed.

End Notifications.

(** * Further properties of the engine *)

Section EnginePrimitives.

Import AI.

Lemma checkWinnerIn_scanCombos (b : list cell) (combos : list combo) :
  match Game.scanCombos b combos with
  | Some r => ∃ v, Game.resultWinner r = Game.Mark v ∧ checkWinnerIn b combos = Read v
  | None => checkWinnerIn b combos = Null
  end.
Proof.
  induction combos as [|[[a1 a2] a3] rest IH]; [done|].
  cbn [Game.scanCombos checkWinnerIn].
  destruct (lineComplete b (a1, a2, a3)); [|done]. simpl. eauto.
Qed.

(** X8. The engine's own tests of a board agree with the state machine's:
    [AI.checkWinner] returns the mark that [Game.checkGameEnd] reports as
    winner, and [null] when that reports a draw or a game that goes on,
    which [AI.isBoardFull] tells apart. *)
Theorem engine_agrees_on_end (b : list cell) :
  (∀ v, checkWinner b = Read v
        ↔ Game.resultWinner (Game.checkGameEnd b) = Game.Mark v)
  ∧ (checkWinner b = Null ∧ isBoardFull b = true
     ↔ Game.resultWinner (Game.checkGameEnd b) = Game.Draw)
  ∧ (checkWinner b = Null ∧ isBoardFull b = false
     ↔ Game.ended (Game.checkGameEnd b) = false).
Proof.
  pose proof (checkWinnerIn_scanCombos b WINNING_COMBINATIONS) as Hscan.
  unfold checkWinner, isBoardFull, Game.checkGameEnd.
  destruct (Game.scanCombos b WINNING_COMBINATIONS) as [r|] eqn:Hr.
  - destruct Hscan as (v & Hv & ->). rewrite Hv.
    rewrite (scanCombos_ended b _ r Hr).
    split; [|split]; [|split; [by intros []|done]..].
    intros v'. split; congruence.
  - rewrite Hscan. destruct (everyNonEmpty b); simpl;
      (split; [|split]); try (split; (done || tauto || by intros [])).
Qed.

End EnginePrimitives.

Section EmptyCellsOrder.

Import AI.

Lemma emptyCellsFrom_sorted (cells : list cell) (k : nat) :
  StronglySorted lt (emptyCellsFrom k cells).
Proof.
  revert k. induction cells as [|c rest IH]; intros k; simpl; [constructor|].
  destruct (decide (c = EMPTY)); [|done].
  constructor; [done|]. apply Forall_forall. intros i Hi.
  apply emptyCellsFrom_elem in Hi. lia.
Qed.

(** X9. [getEmptyCells] lists the indices of the empty cells, each once,
    in increasing order, as many as the board has empty cells; it is the
    list [Game.getAvailableMoves] gives for a game with this board. *)
Theorem getEmptyCells_lists_empty_cells (b : list cell) :
  (∀ i, i ∈ getEmptyCells b ↔ b !! i = Some EMPTY)
  ∧ StronglySorted lt (getEmptyCells b)
  ∧ length (getEmptyCells b) = countMark EMPTY b
  ∧ ∀ s, Game.board s = b → Game.getAvailableMoves s = getEmptyCells b.
Proof.
  split; [intros i; apply getEmptyCells_elem|].
  split; [apply emptyCellsFrom_sorted|].
  split; [apply emptyCellsFrom_length|].
  intros s <-. apply availableFrom_emptyCellsFrom.
Qed.

End EmptyCellsOrder.

Section RandomStrategy.

Import AI.

(** X12. The Random strategy can answer every empty cell: for each there
    is an outcome of [Math.random] with which [findRandomMove] returns it,
    leaving the store as it was. *)
Theorem random_reaches_every_empty_cell (b : list cell) (i : nat) :
  b !! i = Some EMPTY →
  ∃ rnd, validRandom rnd
         ∧ ∀ (σ : gmap nat (list cell)) (board : ref),
             σ !! board = Some b →
             findRandomMove rnd board σ = Some (Index i, σ).
Proof.
  intros Hi. apply getEmptyCells_elem, list_elem_of_lookup_1 in Hi as [k Hk].
  pose proof (lookup_lt_Some _ _ _ Hk) as Hlt.
  exists (λ n, if decide (n = length (getEmptyCells b)) then k else 0%nat).
  split.
  - intros n Hn. destruct (decide _); [by subst|done].
  - intros σ board Hr. rewrite (findRandomMove_run _ board b σ Hr).
    unfold Value.findRandomMove.
    destruct (decide (length (getEmptyCells b) = 0%nat)); [lia|].
    rewrite decide_True by done. unfold pick. by rewrite Hk.
Qed.

Lemma random_reaches_every_empty_cell_witness :
  scenario2 !! 5%nat = Some EMPTY
  ∧ ∃ rnd, validRandom rnd
           ∧ ∀ (σ : gmap nat (list cell)) (board : ref),
               σ !! board = Some scenario2 →
               findRandomMove rnd board σ = Some (Index 5, σ).
Proof.
  split; [reflexivity|]. apply random_reaches_every_empty_cell. reflexivity.
Defined.

End RandomStrategy.

Section ScoreShape.

Import AI.

Lemma scoreShape_step (depth : Z) (n : nat) (r : number) :
  scoreShape (depth + 1) n r → scoreShape depth (S n) r.
Proof.
  intros (z & -> & Hz). exists z. split; [done|].
  destruct Hz as [Hz|(d & Hd & Hz)]; [by left|right].
  exists d. split; [lia|done].
Qed.

Lemma Math_max_either (a b : number) : Math_max a b = a ∨ Math_max a b = b.
Proof. unfold Math_max. destruct (number_le a b); auto. Qed.

Lemma Math_min_either (a b : number) : Math_min a b = a ∨ Math_min a b = b.
Proof. unfold Math_min. destruct (number_le a b); auto. Qed.

Section Loops.

Context (b : list cell) (child : list cell → number → number → option number).
Context (Q : number → Prop).

Lemma maximize_shape (beta : number) (cells : list nat) (bestScore alpha r : number) :
  (∀ i a r', i ∈ cells → child (<[i := PLAYER_O]> b) a beta = Some r' → Q r') →
  Q bestScore ∨ (bestScore = NegInfinity ∧ cells ≠ []) →
  Value.maximize b child beta cells bestScore alpha = Some r → Q r.
Proof.
  revert bestScore alpha.
  induction cells as [|i rest IH]; intros bestScore alpha Hchild Hbest.
  - intros [= <-]. by destruct Hbest as [?|[_ ?]].
  - cbn [Value.maximize].
    destruct (child (<[i := PLAYER_O]> b) alpha beta) as [score|] eqn:Hscore;
      [|done].
    cbn [mbind option_bind].
    assert (Hq : Q (Math_max score bestScore)).
    { pose proof (Hchild i alpha score ltac:(left) Hscore) as Hs.
      destruct Hbest as [Hb|[-> _]].
      - by destruct (Math_max_either score bestScore) as [->| ->].
      - by replace (Math_max score NegInfinity) with score by by destruct score. }
    destruct (number_le _ _); [by intros [= <-]|].
    apply IH; [|by left]. intros j a r' Hj. apply Hchild. by right.
Qed.

Lemma minimize_shape (alpha : number) (cells : list nat) (bestScore beta r : number) :
  (∀ i a r', i ∈ cells → child (<[i := PLAYER_X]> b) alpha a = Some r' → Q r') →
  Q bestScore ∨ (bestScore = Infinity ∧ cells ≠ []) →
  Value.minimize b child alpha cells bestScore beta = Some r → Q r.
Proof.
  revert bestScore beta.
  induction cells as [|i rest IH]; intros bestScore beta Hchild Hbest.
  - intros [= <-]. by destruct Hbest as [?|[_ ?]].
  - cbn [Value.minimize].
    destruct (child (<[i := PLAYER_X]> b) alpha beta) as [score|] eqn:Hscore;
      [|done].
    cbn [mbind option_bind].
    assert (Hq : Q (Math_min score bestScore)).
    { pose proof (Hchild i beta score ltac:(left) Hscore) as Hs.
      destruct Hbest as [Hb|[-> _]].
      - by destruct (Math_min_either score bestScore) as [->| ->].
      - by replace (Math_min score Infinity) with score by by destruct score. }
    destruct (number_le _ _); [by intros [= <-]|].
    apply IH; [|by left]. intros j a r' Hj. apply Hchild. by right.
Qed.

End Loops.

Lemma minimax_shape (fuel : nat) (b : list cell) (depth : Z) (isMaximizing : bool)
    (alpha beta r : number) :
  Value.minimax fuel b depth isMaximizing alpha beta = Some r →
  scoreShape depth (length (getEmptyCells b)) r.
Proof.
  revert b depth isMaximizing alpha beta r.
  induction fuel as [|fuel IH]; intros b depth isMaximizing alpha beta r; [done|].
  cbn [Value.minimax].
  destruct (decide (_ = Read (Some PLAYER_O))).
  { intros [= <-]. eexists. split; [done|]. right. exists depth.
    unfold SCORE_WIN. lia. }
  destruct (decide (_ = Read (Some PLAYER_X))).
  { intros [= <-]. eexists. split; [done|]. right. exists depth.
    unfold SCORE_LOSE. lia. }
  destruct (isBoardFull b) eqn:Hfull.
  { intros [= <-]. eexists. split; [done|]. by left. }
  assert (Hne : getEmptyCells b ≠ []).
  { intros Heq. apply isBoardFull_getEmptyCells in Heq. congruence. }
  assert (Hchild : ∀ i m a a' r' mx, i ∈ getEmptyCells b → m ≠ EMPTY →
            Value.minimax fuel (<[i := m]> b) (depth + 1) mx a a' = Some r' →
            scoreShape depth (length (getEmptyCells b)) r').
  { intros i m a a' r' mx Hi%getEmptyCells_elem Hm Hr.
    rewrite <- (getEmptyCells_insert b i m Hi Hm).
    by eapply scoreShape_step, IH. }
  destruct isMaximizing; intros Hr.
  - eapply maximize_shape; [|by right|exact Hr].
    intros i a r' Hi. by apply Hchild.
  - eapply minimize_shape; [|by right|exact Hr].
    intros i a r' Hi. by apply Hchild.
Qed.

(** X14. The score the search gives a move is an integer of one of three
    shapes: 0, or [10 - d], or [d - 10], where [d], a depth at which the
    search met a finished game, is at least 0 and less than the number of
    empty cells.  On a board with at most nine empty cells the score is
    therefore 0, or from 2 to 10, or from -10 to -2. *)
Theorem scoreMove_range (board : ref) (b : list cell) (index : nat)
    (σ : gmap nat (list cell)) :
  σ !! board = Some b → b !! index = Some EMPTY →
  ∃ z, scoreMove (fuelFor (getEmptyCells b)) board index σ = Some (Num z, σ)
       ∧ (z = 0
          ∨ ∃ d, 0 ≤ d < Z.of_nat (length (getEmptyCells b))
                 ∧ (z = 10 - d ∨ z = d - 10))
       ∧ ((length (getEmptyCells b) ≤ 9)%nat →
            z = 0 ∨ 2 ≤ z ≤ 10 ∨ -10 ≤ z ≤ -2).
Proof.
  intros Hr Hi. rewrite (scoreMove_run _ board index b σ Hr Hi).
  destruct (scoreMove_total b index Hi) as [z Hz]. rewrite Hz. simpl.
  exists z. split; [done|].
  apply minimax_shape in Hz as (z' & [= <-] & Hshape).
  pose proof (getEmptyCells_insert b index PLAYER_O Hi ltac:(done)) as Hn.
  assert (Hd : z = 0 ∨ ∃ d, 0 ≤ d < Z.of_nat (length (getEmptyCells b))
                            ∧ (z = 10 - d ∨ z = d - 10)).
  { destruct Hshape as [->|(d & Hd & Hzd)]; [by left|right].
    exists d. split; [lia|done]. }
  split; [done|]. intros Hnine.
  destruct Hd as [->|(d & Hd & [-> | ->])]; lia.
Qed.

Lemma scoreMove_range_witness :
  ({[0%nat := scenario2]} : gmap nat (list cell)) !! 0%nat = Some scenario2
  ∧ scenario2 !! 5%nat = Some EMPTY
  ∧ ∃ z, scoreMove (fuelFor (getEmptyCells scenario2)) 0%nat 5%nat
           {[0%nat := scenario2]}
         = Some (Num z, {[0%nat := scenario2]})
         ∧ (z = 0
            ∨ ∃ d, 0 ≤ d < Z.of_nat (length (getEmptyCells scenario2))
                   ∧ (z = 10 - d ∨ z = d - 10))
         ∧ ((length (getEmptyCells scenario2) ≤ 9)%nat →
              z = 0 ∨ 2 ≤ z ≤ 10 ∨ -10 ≤ z ≤ -2).
Proof.
  split; [reflexivity|]. split; [reflexivity|].
  apply (scoreMove_range 0%nat scenario2 5%nat); reflexivity.
Defined.

End ScoreShape.

Section FirstBest.

Import AI.

Lemma scoreOf_scoreMove (b : list cell) (j : nat) :
  b !! j = Some EMPTY →
  Value.scoreMove (fuelFor (getEmptyCells b)) b j = Some (Num (scoreOf b j)).
Proof.
  intros Hj. destruct (scoreMove_total b j Hj) as [z Hz].
  unfold scoreOf. by rewrite Hz.
Qed.

Lemma number_gt_Num (z : Z) (best : number) :
  number_gt (Num z) best = true
  ↔ best = NegInfinity ∨ ∃ y, best = Num y ∧ y < z.
Proof.
  destruct best as [|y|]; simpl.
  - split; [by left|done].
  - rewrite Z.ltb_lt. split; [right; eauto|]. by intros [?|(? & [= <-] & ?)].
  - split; [done|]. by intros [?|(? & ? & ?)].
Qed.

(** The loop over the moves answers the first of the best-scored cells,
    if any cell beats the score it starts from. *)
Lemma searchMoves_first_best (b : list cell) (cells : list nat)
    (bestScore : number) (bestMove m : move) :
  (∀ j, j ∈ cells → b !! j = Some EMPTY) →
  Value.searchMoves (fuelFor (getEmptyCells b)) b cells bestScore bestMove = Some m →
  (m = bestMove
   ∧ ∀ j, j ∈ cells → number_gt (Num (scoreOf b j)) bestScore = false)
  ∨ ∃ pre i post,
      cells = pre ++ i :: post ∧ m = Index i
      ∧ number_gt (Num (scoreOf b i)) bestScore = true
      ∧ (∀ j, j ∈ pre → scoreOf b j < scoreOf b i)
      ∧ (∀ j, j ∈ post → scoreOf b j ≤ scoreOf b i).
Proof.
  revert bestScore bestMove.
  induction cells as [|i rest IH]; intros bestScore bestMove Hcells.
  { intros [= <-]. left. split; [done|]. by intros j Hj%not_elem_of_nil. }
  cbn [Value.searchMoves].
  rewrite (scoreOf_scoreMove b i) by (apply Hcells; left).
  cbn [mbind option_bind].
  assert (Hrest : ∀ j, j ∈ rest → b !! j = Some EMPTY).
  { intros j Hj. apply Hcells. by right. }
  destruct (number_gt (Num (scoreOf b i)) bestScore) eqn:Hgt; intros Hm.
  - right. destruct (IH _ _ Hrest Hm)
      as [[-> Hnone]|(pre & i' & post & -> & -> & Hgt' & Hpre & Hpost)].
    + exists [], i, rest. split; [done|]. split; [done|]. split; [done|].
      split; [by intros j Hj%not_elem_of_nil|].
      intros j Hj. specialize (Hnone j Hj). simpl in Hnone.
      by apply Z.ltb_ge in Hnone.
    + exists (i :: pre), i', post. split; [done|]. split; [done|].
      simpl in Hgt'. apply Z.ltb_lt in Hgt'.
      split; [|split; [|done]].
      * apply number_gt_Num. apply number_gt_Num in Hgt as [?|(y & ? & ?)];
          [by left|right]. exists y. split; [done|lia].
      * intros j [->|Hj]%elem_of_cons; [done|by apply Hpre].
  - destruct (IH _ _ Hrest Hm)
      as [[-> Hnone]|(pre & i' & post & -> & -> & Hgt' & Hpre & Hpost)].
    + left. split; [done|]. intros j [->|Hj]%elem_of_cons; [done|by apply Hnone].
    + right. exists (i :: pre), i', post. split; [done|]. split; [done|].
      split; [done|]. split; [|done].
      intros j [->|Hj]%elem_of_cons; [|by apply Hpre].
      apply number_gt_Num in Hgt' as [->|(y & -> & Hy)]; [done|].
      simpl in Hgt. apply Z.ltb_ge in Hgt. lia.
Qed.

(** X13. Outside the two opening shortcuts [findBestMove] answers the
    first of the best moves: the cell it returns is empty, no empty cell
    is scored higher by the search, and every empty cell of lower index
    is scored strictly lower. *)
Theorem findBestMove_first_best (rnd : nat → nat) (board : ref) (b : list cell)
    (σ : gmap nat (list cell)) :
  σ !! board = Some b →
  getEmptyCells b ≠ [] →
  length (getEmptyCells b) ≠ 9%nat →
  (length (getEmptyCells b) = 8%nat → b !! 4%nat = Some EMPTY) →
  ∃ i σ',
    findBestMove rnd board σ = Some (Index i, σ')
    ∧ b !! i = Some EMPTY
    ∧ ∀ j, b !! j = Some EMPTY →
        ∃ zi zj,
          scoreMove (fuelFor (getEmptyCells b)) board i σ = Some (Num zi, σ)
          ∧ scoreMove (fuelFor (getEmptyCells b)) board j σ = Some (Num zj, σ)
          ∧ zj ≤ zi
          ∧ ((j < i)%nat → zj < zi).
Proof.
  intros Hr Hne H9 H8. rewrite (findBestMove_run rnd board b σ Hr).
  unfold Value.findBestMove.
  destruct (decide (length (getEmptyCells b) = 0%nat)) as [H0|_].
  { by apply length_zero_iff_nil in H0. }
  rewrite decide_False by done.
  assert (bool_decide (length (getEmptyCells b) = 8%nat)
          && bool_decide (b !! 4%nat ≠ Some EMPTY) = false) as ->.
  { apply andb_false_iff. destruct (decide (length (getEmptyCells b) = 8%nat)).
    - right. apply bool_decide_eq_false. intros Hc. by apply Hc, H8.
    - left. by apply bool_decide_eq_false. }
  destruct (searchMoves_index (fuelFor (getEmptyCells b)) b (getEmptyCells b)
              NoMove Hne) as (i & Hsearch & Hi).
  { intros j Hj%getEmptyCells_elem. by apply scoreMove_total. }
  rewrite Hsearch. simpl. exists i. eexists. split; [done|].
  apply getEmptyCells_elem in Hi. split; [done|].
  apply searchMoves_first_best in Hsearch
    as [[? _]|(pre & i' & post & Hcells & [= <-] & _ & Hpre & Hpost)];
    [done| |by intros j; apply getEmptyCells_elem].
  pose proof (emptyCellsFrom_sorted b 0) as Hsorted.
  fold (getEmptyCells b) in Hsorted. rewrite Hcells in Hsorted.
  intros j Hj. exists (scoreOf b i), (scoreOf b j).
  rewrite (scoreMove_run _ board i b σ Hr Hi), (scoreMove_run _ board j b σ Hr Hj).
  rewrite !scoreOf_scoreMove by done. split; [done|]. split; [done|].
  apply getEmptyCells_elem in Hj. rewrite Hcells in Hj.
  apply StronglySorted_app_1_r, StronglySorted_cons in Hsorted as [Hafter _].
  rewrite Forall_forall in Hafter.
  apply elem_of_app in Hj as [Hj|[->|Hj]%elem_of_cons].
  - specialize (Hpre j Hj). split; [lia|done].
  - split; [lia|lia].
  - specialize (Hpost j Hj). specialize (Hafter j Hj). split; [done|lia].
Qed.

Lemma findBestMove_first_best_witness :
  ({[0%nat := scenario2]} : gmap nat (list cell)) !! 0%nat = Some scenario2
  ∧ getEmptyCells scenario2 ≠ []
  ∧ length (getEmptyCells scenario2) ≠ 9%nat
  ∧ (length (getEmptyCells scenario2) = 8%nat → scenario2 !! 4%nat = Some EMPTY)
  ∧ ∃ i σ',
      findBestMove (λ _, 0%nat) 0%nat {[0%nat := scenario2]} = Some (Index i, σ')
      ∧ scenario2 !! i = Some EMPTY
      ∧ ∀ j, scenario2 !! j = Some EMPTY →
          ∃ zi zj,
            scoreMove (fuelFor (getEmptyCells scenario2)) 0%nat i
              {[0%nat := scenario2]} = Some (Num zi, {[0%nat := scenario2]})
            ∧ scoreMove (fuelFor (getEmptyCells scenario2)) 0%nat j
                {[0%nat := scenario2]} = Some (Num zj, {[0%nat := scenario2]})
            ∧ zj ≤ zi
            ∧ ((j < i)%nat → zj < zi).
Proof.
  split; [reflexivity|]. split; [by vm_compute|]. split; [by vm_compute|].
  split; [by vm_compute|].
  apply (findBestMove_first_best (λ _, 0%nat) 0%nat scenario2);
    [reflexivity|by vm_compute..].
Defined.

End FirstBest.

Section WinOrBlock.

Import AI.

Lemma boards_complete (b : list cell) : b ∈ Explore.boards (length b).
Proof.
  induction b as [|c b IH]; [by left|].
  simpl. apply list_elem_of_bind. exists b. split; [|done].
  destruct c; repeat constructor.
Qed.

(** All boards of nine cells have been tried. *)
Lemma winsOrBlocks_all :
  forallb Explore.winsOrBlocks (Explore.boards 9) = true.
Proof. vm_compute. reflexivity. Qed.

Lemma winsOrBlocks_board (b : list cell) :
  length b = 9%nat → Explore.winsOrBlocks b = true.
Proof.
  intros Hlen. pose proof winsOrBlocks_all as Hall.
  rewrite forallb_forall in Hall. apply Hall, list_elem_of_In.
  rewrite <- Hlen. apply boards_complete.
Qed.

Lemma winsAt_true (m : cell) (b : list cell) (i : nat) :
  Explore.winsAt m b i = true ↔ checkWinner (<[i := m]> b) = Read (Some m).
Proof. apply bool_decide_eq_true. Qed.

Lemma existsb_winsAt (m : cell) (b : list cell) :
  existsb (Explore.winsAt m b) (getEmptyCells b) = true
  ↔ ∃ j, b !! j = Some EMPTY ∧ checkWinner (<[j := m]> b) = Read (Some m).
Proof.
  rewrite existsb_exists. split; intros (j & Hj & Hw); exists j.
  - by rewrite <- getEmptyCells_elem, list_elem_of_In, <- winsAt_true.
  - by rewrite <- list_elem_of_In, getEmptyCells_elem, winsAt_true.
Qed.

(** What the exploration says of the answer on one board. *)
Lemma winsOrBlocks_answer (rnd : nat → nat) (b : list cell) :
  validRandom rnd → length b = 9%nat → checkWinner b = Null →
  getEmptyCells b ≠ [] →
  ∃ i, Value.findBestMove rnd b = Some (Index i)
       ∧ b !! i = Some EMPTY
       ∧ (if existsb (Explore.winsAt PLAYER_O b) (getEmptyCells b)
          then Explore.winsAt PLAYER_O b i
          else if Explore.oneThreat b then Explore.winsAt PLAYER_X b i
          else true) = true.
Proof.
  intros Hrnd Hlen Hnull Hne.
  destruct (findBestMove_answer rnd b Hrnd Hlen) as (m & Hm & _ & Hidx).
  destruct (Hidx Hne) as (i & -> & Hi). exists i. split; [done|]. split; [done|].
  destruct (findBestMove_oracle rnd b Hrnd) as (k & Hk & Heq).
  pose proof (winsOrBlocks_board b Hlen) as Hall.
  unfold Explore.winsOrBlocks in Hall. rewrite decide_True in Hall by done.
  rewrite forallb_forall in Hall. specialize (Hall k).
  rewrite <- list_elem_of_In in Hall. specialize (Hall Hk).
  by rewrite <- Heq, Hm in Hall.
Qed.

(** X10. The Optimal strategy takes a win that is on offer: on a board of
    nine cells without a complete line, if some empty cell completes a
    line of O, the cell [findBestMove] answers completes a line of O. *)
Theorem optimal_takes_immediate_win (rnd : nat → nat) (board : ref)
    (b : list cell) (σ : gmap nat (list cell)) (j : nat) :
  validRandom rnd → length b = 9%nat → σ !! board = Some b →
  checkWinner b = Null →
  b !! j = Some EMPTY →
  checkWinner (<[j := PLAYER_O]> b) = Read (Some PLAYER_O) →
  ∃ i σ', findBestMove rnd board σ = Some (Index i, σ')
          ∧ b !! i = Some EMPTY
          ∧ checkWinner (<[i := PLAYER_O]> b) = Read (Some PLAYER_O).
Proof.
  intros Hrnd Hlen Hr Hnull Hj Hwin.
  assert (Hne : getEmptyCells b ≠ []).
  { intros Heq. apply getEmptyCells_elem in Hj. rewrite Heq in Hj.
    by apply not_elem_of_nil in Hj. }
  destruct (winsOrBlocks_answer rnd b Hrnd Hlen Hnull Hne) as (i & Hi & Hcell & Hgood).
  rewrite (findBestMove_run rnd board b σ Hr), Hi. simpl.
  exists i. eexists. split; [done|]. split; [done|].
  assert (Hex : existsb (Explore.winsAt PLAYER_O b) (getEmptyCells b) = true).
  { apply existsb_winsAt. eauto. }
  rewrite Hex in Hgood. by apply winsAt_true.
Qed.

Lemma optimal_takes_immediate_win_witness :
  validRandom (λ _, 0%nat)
  ∧ length scenario2 = 9%nat
  ∧ ({[0%nat := scenario2]} : gmap nat (list cell)) !! 0%nat = Some scenario2
  ∧ checkWinner scenario2 = Null
  ∧ scenario2 !! 5%nat = Some EMPTY
  ∧ checkWinner (<[5%nat := PLAYER_O]> scenario2) = Read (Some PLAYER_O)
  ∧ ∃ i σ', findBestMove (λ _, 0%nat) 0%nat {[0%nat := scenario2]}
            = Some (Index i, σ')
            ∧ scenario2 !! i = Some EMPTY
            ∧ checkWinner (<[i := PLAYER_O]> scenario2) = Read (Some PLAYER_O).
Proof.
  assert (Hrnd : validRandom (λ _, 0%nat)) by (intros n Hn; lia).
  split; [exact Hrnd|]. do 5 (split; [reflexivity|]).
  apply (optimal_takes_immediate_win (λ _, 0%nat) 0%nat scenario2 _ 5%nat);
    (exact Hrnd || reflexivity).
Defined.

(** X11. The Optimal strategy blocks: on a board of nine cells without a
    complete line, if no empty cell completes a line of O and exactly one
    empty cell completes a line of X, [findBestMove] answers that cell. *)
Theorem optimal_blocks_single_threat (rnd : nat → nat) (board : ref)
    (b : list cell) (σ : gmap nat (list cell)) (j : nat) :
  validRandom rnd → length b = 9%nat → σ !! board = Some b →
  checkWinner b = Null →
  (∀ i, b !! i = Some EMPTY →
        checkWinner (<[i := PLAYER_O]> b) ≠ Read (Some PLAYER_O)) →
  b !! j = Some EMPTY →
  checkWinner (<[j := PLAYER_X]> b) = Read (Some PLAYER_X) →
  (∀ i, b !! i = Some EMPTY →
        checkWinner (<[i := PLAYER_X]> b) = Read (Some PLAYER_X) → i = j) →
  ∃ σ', findBestMove rnd board σ = Some (Index j, σ').
Proof.
  intros Hrnd Hlen Hr Hnull Hnowin Hj Hthreat Honly.
  assert (Hne : getEmptyCells b ≠ []).
  { intros Heq. apply getEmptyCells_elem in Hj. rewrite Heq in Hj.
    by apply not_elem_of_nil in Hj. }
  destruct (winsOrBlocks_answer rnd b Hrnd Hlen Hnull Hne) as (i & Hi & Hcell & Hgood).
  rewrite (findBestMove_run rnd board b σ Hr), Hi. simpl.
  assert (Hex : existsb (Explore.winsAt PLAYER_O b) (getEmptyCells b) = false).
  { apply not_true_is_false. intros (i' & Hi' & Hw)%existsb_winsAt.
    by apply (Hnowin i'). }
  assert (Hone : Explore.oneThreat b = true).
  { unfold Explore.oneThreat. apply andb_true_iff. split.
    - apply existsb_winsAt. eauto.
    - apply forallb_forall. intros j1 Hj1. apply forallb_forall. intros j2 Hj2.
      rewrite <- list_elem_of_In, getEmptyCells_elem in Hj1, Hj2.
      destruct (Explore.winsAt PLAYER_X b j1) eqn:H1; [|done].
      destruct (Explore.winsAt PLAYER_X b j2) eqn:H2; [|done].
      apply winsAt_true in H1, H2. simpl. apply bool_decide_eq_true.
      rewrite (Honly j1), (Honly j2); done. }
  rewrite Hex, Hone in Hgood. apply winsAt_true in Hgood.
  rewrite (Honly i Hcell Hgood). eauto.
Qed.

Lemma optimal_blocks_single_threat_witness :
  validRandom (λ _, 0%nat)
  ∧ ∃ σ', findBestMove (λ _, 0%nat) 0%nat
            {[0%nat := [PLAYER_X; PLAYER_X; EMPTY; EMPTY; PLAYER_O;
                        EMPTY; EMPTY; EMPTY; EMPTY]]}
          = Some (Index 2, σ').
Proof.
  assert (Hrnd : validRandom (λ _, 0%nat)) by (intros n Hn; lia).
  split; [exact Hrnd|].
  apply (optimal_blocks_single_threat (λ _, 0%nat) 0%nat
           [PLAYER_X; PLAYER_X; EMPTY; EMPTY; PLAYER_O; EMPTY; EMPTY; EMPTY; EMPTY]);
    try (exact Hrnd || reflexivity).
  - intros i Hi. do 9 (destruct i as [|i]; [vm_compute; congruence|]).
    by destruct i.
  - intros i Hi. do 9 (destruct i as [|i]; [vm_compute; congruence|]).
    by destruct i.
Defined.

End WinOrBlock.

(** * The game loop (main.js) *)

Section GameLoop.

Import Game.















End GameLoop.

Section NewGame.

Import Game.




End NewGame.

(** * Player names (storage.js) *)

Section PlayerNames.

Import Storage.

Lemma replaceAll_app (c : Z) (replacement s1 s2 : list Z) :
  replaceAll c replacement (s1 ++ s2)
  = replaceAll c replacement s1 ++ replaceAll c replacement s2.
Proof. unfold replaceAll. apply bind_app. Qed.

Lemma replaceAll_other (c x : Z) (replacement : list Z) :
  x ≠ c → replaceAll c replacement [x] = [x].
Proof. intros Hne. unfold replaceAll. simpl. by rewrite decide_False. Qed.

(** The five replacements, one after the other, escape each code unit on
    its own: no replacement touches what an earlier one put in. *)
Lemma replacements_escape (s : list Z) :
  replaceAll 39 aposEntity (replaceAll 34 quotEntity (replaceAll 62 gtEntity
    (replaceAll 60 ltEntity (replaceAll 38 ampEntity s))))
  = s ≫= escaped.
Proof.
  induction s as [|c rest IH]; [done|].
  change (c :: rest) with ([c] ++ rest).
  rewrite !replaceAll_app, IH, bind_app. f_equal.
  unfold escaped. simpl. rewrite app_nil_r.
  repeat (destruct (decide (c = _)) as [->|?]; [reflexivity|]).
  by rewrite !replaceAll_other.
Qed.

Lemma escaped_safe (c : Z) :
  Forall (λ x, x ∉ [60; 62; 34; 39]) (escaped c) ∧ (length (escaped c) ≤ 6)%nat.
Proof.
  assert (Hcases : c = 38 ∨ c = 60 ∨ c = 62 ∨ c = 34 ∨ c = 39
                   ∨ (c ≠ 38 ∧ c ≠ 60 ∧ c ≠ 62 ∧ c ≠ 34 ∧ c ≠ 39)) by lia.
  assert (Hplain : ∀ x, x ≠ 60 → x ≠ 62 → x ≠ 34 → x ≠ 39 →
                        x ∉ [60; 62; 34; 39]).
  { intros x ???? Hin.
    repeat (apply elem_of_cons in Hin as [Hin|Hin]; [done|]).
    by apply not_elem_of_nil in Hin. }
  unfold escaped.
  destruct Hcases as [-> | [-> | [-> | [-> | [-> | (? & ? & ? & ? & ?)]]]]].
  1-5: split; [|simpl; lia];
       repeat (apply Forall_cons; split; [by apply Hplain|]); by apply Forall_nil.
  rewrite !decide_False by done. split; [|simpl; lia].
  apply Forall_cons. split; [by apply Hplain|by apply Forall_nil].
Qed.

Lemma bind_escaped (s : list Z) :
  Forall (λ x, x ∉ [60; 62; 34; 39]) (s ≫= escaped)
  ∧ (length (s ≫= escaped) ≤ 6 * length s)%nat
  ∧ (Forall (λ x, x ∉ [38; 60; 62; 34; 39]) s → s ≫= escaped = s).
Proof.
  induction s as [|c rest (IH1 & IH2 & IH3)];
    [by repeat split; try constructor|].
  destruct (escaped_safe c) as [Hsafe Hlen].
  change ((c :: rest) ≫= escaped) with (escaped c ++ (rest ≫= escaped)).
  split; [by apply Forall_app|]. split; [rewrite length_app; simpl; lia|].
  intros [Hc Hrest]%Forall_cons. rewrite (IH3 Hrest).
  unfold escaped.
  repeat (destruct (decide (c = _)) as [->|?];
          [exfalso; apply Hc; repeat constructor|]).
  done.
Qed.

(** X20. A sanitized name is safe to put into markup and stays short:
    whatever the argument, the result of [sanitizePlayerName] has no angle
    bracket and no quote, and at most 180 code units, six for each of the
    at most 30 it keeps; a name of at most 30 code units, without white
    space at its ends and without ampersand, angle bracket or quote, is
    returned as it is; what is not a string gives the empty name. *)
Theorem sanitized_name_is_safe (name : value) :
  Forall (λ x, x ∉ [60; 62; 34; 39]) (sanitizePlayerName name)
  ∧ (length (sanitizePlayerName name) ≤ 180)%nat
  ∧ (∀ s, name = Str s → trim s = s → (length s ≤ 30)%nat →
          Forall (λ x, x ∉ [38; 60; 62; 34; 39]) s →
          sanitizePlayerName name = s)
  ∧ (name = NotAString → sanitizePlayerName name = []).
Proof.
  destruct name as [s|]; [|by repeat split; try constructor; simpl; try lia].
  unfold sanitizePlayerName. rewrite replacements_escape.
  set (kept := if decide (PLAYER_NAME_MAX_LENGTH < length (trim s))%nat
               then take PLAYER_NAME_MAX_LENGTH (trim s) else trim s).
  assert (Hkept : (length kept ≤ 30)%nat).
  { unfold kept, PLAYER_NAME_MAX_LENGTH in *. destruct (decide _).
    - rewrite length_take. lia.
    - lia. }
  destruct (bind_escaped kept) as (Hsafe & Hlen & Hsame).
  split; [done|]. split; [lia|]. split; [|done].
  intros s' [= <-] Htrim Hshort Hplain. unfold kept in *.
  rewrite Htrim in *. unfold PLAYER_NAME_MAX_LENGTH in *.
  rewrite decide_False in * by lia. by apply Hsame.
Qed.

End PlayerNames.
